(** * canlii-mcp: the outbound request admission governor

    A shallow embedding of the rate limiter ([acquireSlot] / [releaseSlot])
    and of the HTTP helper [canliiRequest] of [src/index.ts] (the same code
    is repeated in the worker's [server.ts], where the API key is an
    argument instead of a module constant).

    The code is asynchronous JavaScript: a call runs synchronously until it
    reaches an [await] on a pending promise, and its continuation runs later
    as a separate job.  Each such synchronous segment is embedded as a pure
    function on the module-level state; the event loop is a transition
    system whose steps are these jobs. *)

From Stdlib Require Import ZArith NArith String List DecimalString Lia.
From stdpp Require Import gmap strings list.

Local Open Scope Z_scope.

(** ** JavaScript values used by the code *)

(** An [Error] object; only its message is ever observed. *)
Record Error := mkError { message : string }.

(** The outcome of an awaited promise. *)
Inductive Settled (A : Type) :=
| Fulfilled (a : A)
| Rejected (e : Error).
Arguments Fulfilled {A} a.
Arguments Rejected {A} e.

(** Template-literal conversion of an integral number. *)
Definition Number_toString (n : N) : string :=
  NilZero.string_of_uint (N.to_uint n).

(** [s] occurs inside [t]. *)
Definition contains (t s : string) : Prop :=
  exists pre post : string, t = pre +:+ s +:+ post.

(** ** Rate limiter: 2 req/s, 1 concurrent, 5 000/day *)

(** One invocation of [canliiRequest]; the entry it pushes on [queue] is
    identified with it. *)
Abbreviation Caller := positive (only parsing).

(** The module-level variables of lines 26-30. *)
Record Limiter := mkLimiter {
  dailyCount : Z;
  dailyResetDate : string;
  lastRequestTime : Z;
  inFlight : bool;
  queue : list Caller
}.

(** What the clock answers inside one job: [Date.now()] and
    [new Date().toDateString()]. *)
Record Clock := mkClock { now : Z; today : string }.

Definition quotaError : Error :=
  mkError "CanLII daily API limit (5 000 requests) reached".

(** State at module load: the reset date is the date of loading. *)
Definition initial (loaded : string) : Limiter :=
  mkLimiter 0 loaded 0 false [].

Definition resetDailyIfNeeded (today : string) (g : Limiter) : Limiter :=
  if negb (String.eqb today (dailyResetDate g))
  then mkLimiter 0 today (lastRequestTime g) (inFlight g) (queue g)
  else g.

(** How the first segment of [acquireSlot] (lines 41-47) ends. *)
Inductive Entry :=
| Throws (e : Error)   (* line 43 *)
| Enqueued             (* line 46: suspended on the queue promise *)
| Proceeds.            (* falls through to line 48 *)

Definition acquireSlot_enter (c : Caller) (today : string) (g : Limiter)
  : Limiter * Entry :=
  let g := resetDailyIfNeeded today g in
  if 5000 <=? dailyCount g then (g, Throws quotaError)
  else if inFlight g then
    (mkLimiter (dailyCount g) (dailyResetDate g) (lastRequestTime g)
       (inFlight g) (queue g ++ [c]), Enqueued)
  else (g, Proceeds).

(** Lines 48-50: the flag is set and the spacing wait computed. *)
Definition acquireSlot_take (now : Z) (g : Limiter) : Limiter * Z :=
  (mkLimiter (dailyCount g) (dailyResetDate g) (lastRequestTime g)
     true (queue g),
   Z.max 0 (500 - (now - lastRequestTime g))).

(** Lines 52-53. *)
Definition acquireSlot_finish (now : Z) (g : Limiter) : Limiter :=
  mkLimiter (dailyCount g + 1) (dailyResetDate g) now (inFlight g) (queue g).

(** Lines 56-60; the result names the waiter whose promise is resolved. *)
Definition releaseSlot (g : Limiter) : Limiter * option Caller :=
  match queue g with
  | [] =>
      (mkLimiter (dailyCount g) (dailyResetDate g) (lastRequestTime g)
         false [], None)
  | next :: rest =>
      (mkLimiter (dailyCount g) (dailyResetDate g) (lastRequestTime g)
         false rest, Some next)
  end.

(** ** CanLII HTTP helper *)

Definition BASE_URL : string := "https://api.canlii.org/v1".

(** [URLSearchParams]: an ordered list of name-value pairs. *)
Abbreviation SearchParams := (list (string * string)) (only parsing).

(** [set(name, value)]: the first pair named [name] gets the value and the
    other pairs of that name are removed; without such a pair one is
    appended. *)
Fixpoint URLSearchParams_set (name value : string) (l : SearchParams)
  : SearchParams :=
  match l with
  | [] => [(name, value)]
  | (k, v) :: rest =>
      if String.eqb name k
      then (name, value)
           :: List.filter (fun p => negb (String.eqb name (fst p))) rest
      else (k, v) :: URLSearchParams_set name value rest
  end.

(** [get(name)]: the value of the first pair named [name]. *)
Fixpoint URLSearchParams_get (name : string) (l : SearchParams)
  : option string :=
  match l with
  | [] => None
  | (k, v) :: rest =>
      if String.eqb name k then Some v else URLSearchParams_get name rest
  end.

(** [getAll(name)]. *)
Definition URLSearchParams_getAll (name : string) (l : SearchParams)
  : list string :=
  List.map snd (List.filter (fun p => String.eqb name (fst p)) l).

Record URL := mkURL { input : string; searchParams : SearchParams }.

(** [Object.entries(params)]: the own properties in order, each key once;
    a value is a string or [undefined]. *)
Abbreviation Entries := (list (string * option string)) (only parsing).

(** The values the URL carries for a name. *)
Definition sent_as (k : string) (u : URL) : list string :=
  URLSearchParams_getAll k (searchParams u).

Section Request.

(** The query pairs the platform's URL parser finds in its input. *)
Variable parseQuery : string -> SearchParams.

Definition URL_new (s : string) : URL := mkURL s (parseQuery s).

Definition URL_set (k v : string) (u : URL) : URL :=
  mkURL (input u) (URLSearchParams_set k v (searchParams u)).

(** One iteration of the loop of lines 74-76. *)
Definition setEntry (u : URL) (e : string * option string) : URL :=
  match e with
  | (k, Some v) => if negb (String.eqb v "") then URL_set k v u else u
  | (k, None) => u
  end.

(** Lines 72-76. *)
Definition buildUrl (apiKey path : string) (params : Entries) : URL :=
  let url := URL_new (BASE_URL +:+ path) in
  let url := URL_set "api_key" apiKey url in
  fold_left setEntry params url.

End Request.

Section Response.

(** The parsed payload; opaque to the code. *)
Variable Json : Type.

(** A [Response]: its status and what [text()] and [json()] settle to. *)
Record Response := mkResponse {
  status : N;
  text : Settled string;
  json : Settled Json
}.

Definition ok (res : Response) : bool :=
  (200 <=? status res)%N && (status res <=? 299)%N.

(** What [fetch] settles to. *)
Inductive FetchOutcome :=
| NetworkError (e : Error)
| Responded (res : Response).

Definition upstreamError (st : N) (body : string) : Error :=
  mkError ("CanLII API " +:+ Number_toString st +:+ ": " +:+ body).

(** Lines 77-82: what the try block completes with. *)
Definition respond (o : FetchOutcome) : Settled Json :=
  match o with
  | NetworkError e => Rejected e
  | Responded res =>
      if negb (ok res) then
        match text res with
        | Fulfilled body => Rejected (upstreamError (status res) body)
        | Rejected e => Rejected e
        end
      else json res
  end.

End Response.

Arguments mkResponse {Json} _ _ _.
Arguments status {Json} _.
Arguments text {Json} _.
Arguments json {Json} _.
Arguments ok {Json} _.
Arguments NetworkError {Json} _.
Arguments Responded {Json} _.
Arguments respond {Json} _.

(** ** The event loop

    An invocation of [canliiRequest] is suspended at one of four places:
    the queue promise of line 46, the spacing timer of line 51, and, in the
    try region, [fetch] and the reading of the body.  Between two of them it
    runs as one job, without interruption.  The steps of the system are
    these jobs:

    - [Call]: [canliiRequest] is called and runs [acquireSlot] up to its
      first suspension, or to its end;
    - [Resume]: the continuation of line 46, queued by [next.resolve()];
      [resolve] does not run it: the host does, after the jobs that were
      queued before it;
    - [TimerFired]: the continuation of line 51, no earlier than the delay
      asked for;
    - [FetchSettled]: the rest of the try region, once [fetch] has rejected
      or the body has been read, and the finally block.

    The continuation of [await acquireSlot()] in [canliiRequest] (lines
    72-77) reads and writes no module variable; it is run with the job that
    ends [acquireSlot], so the log shows each request right after the
    admission it follows.  The jobs that the platform may run between the
    two are not told apart, and no statement below is about them.  The URL
    constructor cannot fail on the fixed base followed by a path.  The clock
    never goes back. *)

(** What the log keeps of an execution. *)
Inductive Event :=
| EvCall (c : Caller) (rolled : bool)
    (* [canliiRequest] is called; whether line 35 restarted the counter *)
| EvEnqueue (c : Caller)            (* line 46: [queue.push] *)
| EvTake (c : Caller)               (* line 48: [inFlight = true] *)
| EvAdmit (c : Caller) (t : Z)      (* lines 52-53: [acquireSlot] returns *)
| EvFetch (c : Caller) (url : URL)  (* line 77: the request is sent *)
| EvRelease (c : Caller) (next : option Caller).
    (* line 84: [releaseSlot()], and the waiter whose promise it resolves *)

Section EventLoop.

Variable parseQuery : string -> SearchParams.
Variable API_KEY : string.
Variable Json : Type.

(** Where an invocation of [canliiRequest] is suspended. *)
Inductive Pc :=
| AwaitQueue                (* line 46, promise pending *)
| QueueResolved             (* line 46, promise resolved: continuation due *)
| AwaitTimer (deadline : Z) (* line 51 *)
| AwaitFetch                (* lines 77-82: [fetch], [text()] or [json()] *)
| Returned (r : Settled Json).

Record Invocation := mkInvocation {
  path : string;
  params : Entries;
  pc : Pc
}.

Definition at_pc (p : Pc) (i : Invocation) : Invocation :=
  mkInvocation (path i) (params i) p.

(** The module state, the invocations, the log (latest entry first) and the
    latest clock reading. *)
Record System := mkSystem {
  limiter : Limiter;
  calls : gmap positive Invocation;
  log : list Event;
  time : Z
}.

Definition boot (loaded : string) (t0 : Z) : System :=
  mkSystem (initial loaded) ∅ [] t0.

(** The jobs the host runs.  Here it alone chooses their order; the order
    the platform keeps is that of [turn], further down. *)
Inductive Job :=
| Call (c : Caller) (path : string) (params : Entries) (clk : Clock)
| Resume (c : Caller) (now : Z)       (* continuation of line 46 *)
| TimerFired (c : Caller) (now : Z)   (* continuation of line 51 *)
| FetchSettled (c : Caller) (o : FetchOutcome Json).

(** Lines 52-53, and then lines 72-77 of [canliiRequest]. *)
Definition granted (c : Caller) (i : Invocation) (now : Z) (s : System)
  : System :=
  mkSystem (acquireSlot_finish now (limiter s))
    (<[c := at_pc AwaitFetch i]> (calls s))
    (EvFetch c (buildUrl parseQuery API_KEY (path i) (params i))
       :: EvAdmit c now :: log s)
    now.

(** Lines 48-51, continuing with [granted] when there is nothing to wait. *)
Definition take (c : Caller) (i : Invocation) (now : Z) (s : System)
  : System :=
  let taken :=
    mkSystem (fst (acquireSlot_take now (limiter s))) (calls s)
      (EvTake c :: log s) now in
  let wait := snd (acquireSlot_take now (limiter s)) in
  if 0 <? wait
  then mkSystem (limiter taken)
         (<[c := at_pc (AwaitTimer (now + wait)) i]> (calls taken))
         (log taken) now
  else granted c i now taken.

(** [next.resolve()] of line 59. *)
Definition wake (next : option Caller) (m : gmap positive Invocation)
  : gmap positive Invocation :=
  match next with
  | Some w => alter (at_pc QueueResolved) w m
  | None => m
  end.

Definition exec (j : Job) (s : System) : option System :=
  match j with
  | Call c path params clk =>
      match calls s !! c with
      | Some _ => None
      | None =>
          if negb (time s <=? now clk) then None else
          let i := mkInvocation path params AwaitQueue in
          let g := fst (acquireSlot_enter c (today clk) (limiter s)) in
          let rolled :=
            negb (String.eqb (today clk) (dailyResetDate (limiter s))) in
          let called := EvCall c rolled :: log s in
          match snd (acquireSlot_enter c (today clk) (limiter s)) with
          | Throws err =>
              Some (mkSystem g
                      (<[c := at_pc (Returned (Rejected err)) i]> (calls s))
                      called (now clk))
          | Enqueued =>
              Some (mkSystem g (<[c := i]> (calls s))
                      (EvEnqueue c :: called) (now clk))
          | Proceeds =>
              Some (take c i (now clk)
                      (mkSystem g (calls s) called (now clk)))
          end
      end
  | Resume c now =>
      match calls s !! c with
      | Some i =>
          match pc i with
          | QueueResolved =>
              if time s <=? now then Some (take c i now s) else None
          | _ => None
          end
      | None => None
      end
  | TimerFired c now =>
      match calls s !! c with
      | Some i =>
          match pc i with
          | AwaitTimer deadline =>
              if (time s <=? now) && (deadline <=? now)
              then Some (granted c i now s) else None
          | _ => None
          end
      | None => None
      end
  | FetchSettled c o =>
      match calls s !! c with
      | Some i =>
          match pc i with
          | AwaitFetch =>
              Some (mkSystem (fst (releaseSlot (limiter s)))
                      (wake (snd (releaseSlot (limiter s)))
                         (<[c := at_pc (Returned (respond o)) i]> (calls s)))
                      (EvRelease c (snd (releaseSlot (limiter s))) :: log s)
                      (time s))
          | _ => None
          end
      | None => None
      end
  end.

(** A schedule: the jobs in the order the host runs them. *)
Fixpoint run (js : list Job) (s : System) : option System :=
  match js with
  | [] => Some s
  | j :: js =>
      match exec j s with
      | Some s => run js s
      | None => None
      end
  end.

(** Where caller [c] stands. *)
Definition pc_of (s : System) (c : Caller) : option Pc :=
  pc <$> calls s !! c.

(** The callers between line 48 and line 84: they have set the flag and not
    yet called [releaseSlot]. *)
Definition holding (p : Pc) : bool :=
  match p with
  | AwaitTimer _ | AwaitFetch => true
  | _ => false
  end.

Definition holds (s : System) (c : Caller) : Prop :=
  exists p, pc_of s c = Some p /\ holding p = true.

End EventLoop.

Arguments AwaitQueue {Json}.
Arguments QueueResolved {Json}.
Arguments AwaitTimer {Json} _.
Arguments AwaitFetch {Json}.
Arguments Returned {Json} _.
Arguments mkInvocation {Json} _ _ _.
Arguments path {Json} _.
Arguments params {Json} _.
Arguments pc {Json} _.
Arguments at_pc {Json} _ _.
Arguments mkSystem {Json} _ _ _ _.
Arguments limiter {Json} _.
Arguments calls {Json} _.
Arguments log {Json} _.
Arguments time {Json} _.
Arguments boot {Json} _ _.
Arguments Call {Json} _ _ _ _.
Arguments Resume {Json} _ _.
Arguments TimerFired {Json} _ _.
Arguments FetchSettled {Json} _ _.
Arguments granted _ _ {Json} _ _ _ _.
Arguments take _ _ {Json} _ _ _ _.
Arguments wake {Json} _ _.
Arguments exec _ _ {Json} _ _.
Arguments run _ _ {Json} _ _.
Arguments pc_of {Json} _ _.
Arguments holding {Json} _.
Arguments holds {Json} _ _.

(** ** Reading the log *)

(** The log in the order of time. *)
Definition history {Json : Type} (s : System Json) : list Event :=
  rev (log s).

Definition is_call (c : Caller) (e : Event) : bool :=
  match e with EvCall c' _ => Pos.eqb c c' | _ => false end.

Definition is_enqueue (c : Caller) (e : Event) : bool :=
  match e with EvEnqueue c' => Pos.eqb c c' | _ => false end.

Definition is_take (c : Caller) (e : Event) : bool :=
  match e with EvTake c' => Pos.eqb c c' | _ => false end.

Definition is_admit (c : Caller) (e : Event) : bool :=
  match e with EvAdmit c' _ => Pos.eqb c c' | _ => false end.

Definition is_fetch (c : Caller) (e : Event) : bool :=
  match e with EvFetch c' _ => Pos.eqb c c' | _ => false end.

Definition is_release (c : Caller) (e : Event) : bool :=
  match e with EvRelease c' _ => Pos.eqb c c' | _ => false end.

(** How many entries of the log satisfy [f]. *)
Fixpoint count (f : Event -> bool) (l : list Event) : nat :=
  match l with
  | [] => O
  | e :: l => ((if f e then 1 else 0) + count f l)%nat
  end.

(** The place of the first entry that satisfies [f]. *)
Fixpoint first_at (f : Event -> bool) (l : list Event) : option nat :=
  match l with
  | [] => None
  | e :: l => if f e then Some O else S <$> first_at f l
  end.

(** The admissions of a history, with their timestamps. *)
Fixpoint admissions (l : list Event) : list (Caller * Z) :=
  match l with
  | [] => []
  | EvAdmit c t :: l => (c, t) :: admissions l
  | _ :: l => admissions l
  end.

(** The admissions of a log (latest entry first) since the counter was last
    restarted. *)
Fixpoint since_rollover (l : list Event) : nat :=
  match l with
  | [] => O
  | EvCall _ true :: _ => O
  | EvAdmit _ _ :: l => S (since_rollover l)
  | _ :: l => since_rollover l
  end.

(** Consecutive admissions are at least 500 ms apart. *)
Fixpoint spaced (a : list (Caller * Z)) : Prop :=
  match a with
  | [] => True
  | (_, t1) :: rest =>
      match rest with
      | [] => True
      | (_, t2) :: _ => t1 + 500 <= t2 /\ spaced rest
      end
  end.

(** ** The properties at stake *)

(** At most one invocation is between line 48 and line 84. *)
Definition exclusive {Json : Type} (s : System Json) : Prop :=
  forall c1 c2, holds s c1 -> holds s c2 -> c1 = c2.

(** A continuation of line 46 is due: [releaseSlot] has resolved the
    promise of a waiter that has not resumed yet. *)
Definition is_resolved {Json : Type} (i : Invocation Json) : bool :=
  match pc i with
  | QueueResolved => true
  | _ => false
  end.

Definition resumption_due {Json : Type} (s : System Json) : bool :=
  existsb (fun ci => is_resolved (snd ci)) (map_to_list (calls s)).

(** The host makes no new call while such a continuation is due. *)
Definition prompt {Json : Type} (j : Job Json) (s : System Json) : bool :=
  match j with
  | Call _ _ _ _ => negb (resumption_due s)
  | _ => true
  end.

Fixpoint prompt_run (parseQuery : string -> SearchParams) (API_KEY : string)
    {Json : Type} (js : list (Job Json)) (s : System Json) : bool :=
  match js with
  | [] => true
  | j :: js =>
      prompt j s &&
      match exec parseQuery API_KEY j s with
      | Some s' => prompt_run parseQuery API_KEY js s'
      | None => true
      end
  end.

(** The waiters in the order they entered the queue, and in the order
    [releaseSlot] resolved them, read off a log (latest entry first). *)
Fixpoint enqueued (l : list Event) : list Caller :=
  match l with
  | [] => []
  | EvEnqueue c :: l => enqueued l ++ [c]
  | _ :: l => enqueued l
  end.

Fixpoint woken (l : list Event) : list Caller :=
  match l with
  | [] => []
  | EvRelease _ (Some w) :: l => woken l ++ [w]
  | _ :: l => woken l
  end.

(** ** Invariants of the event loop *)

(** The entries of [queue] are distinct, and each belongs to an invocation
    suspended at line 46 with its promise pending. *)
Definition queue_ok {Json : Type} (s : System Json) : Prop :=
  List.NoDup (queue (limiter s)) /\
  forall w, In w (queue (limiter s)) -> pc_of s w = Some AwaitQueue.

(** What the log holds of caller [c]: its admissions, requests and releases. *)
Definition tally (c : Caller) (l : list Event) : nat * nat * nat :=
  (count (is_admit c) l, count (is_fetch c) l, count (is_release c) l).

(** The log agrees with where each invocation stands. *)
Definition accounted {Json : Type} (s : System Json) (c : Caller) : Prop :=
  match pc_of s c with
  | Some AwaitFetch => tally c (log s) = (1, 1, 0)%nat
  | Some (Returned r) =>
      tally c (log s) = (1, 1, 1)%nat \/
      (tally c (log s) = (0, 0, 0)%nat /\ r = Rejected quotaError)
  | _ => tally c (log s) = (0, 0, 0)%nat
  end.

(** A set flag belongs to an invocation that has yet to release it. *)
Definition flag_owned {Json : Type} (s : System Json) : Prop :=
  inFlight (limiter s) = true -> exists c, holds s c.

(** The slot is held or owed to one invocation at most, and the flag is set
    while it is held. *)
Definition busy {Json : Type} (p : Pc Json) : bool :=
  match p with
  | QueueResolved | AwaitTimer _ | AwaitFetch => true
  | _ => false
  end.

Definition serial {Json : Type} (s : System Json) : Prop :=
  (forall c1 c2 p1 p2,
     pc_of s c1 = Some p1 -> pc_of s c2 = Some p2 ->
     busy p1 = true -> busy p2 = true -> c1 = c2) /\
  (forall c p,
     pc_of s c = Some p -> holding p = true ->
     inFlight (limiter s) = true).

(** Consecutive admissions of a log (latest entry first) are 500 ms apart;
    the latest is the one [lastRequestTime] records; and a spacing timer
    ends no earlier than 500 ms after it. *)
Fixpoint spaced_back (a : list (Caller * Z)) : Prop :=
  match a with
  | [] => True
  | (_, t2) :: rest =>
      match rest with
      | [] => True
      | (_, t1) :: _ => t1 + 500 <= t2 /\ spaced_back rest
      end
  end.

Definition paced {Json : Type} (s : System Json) : Prop :=
  spaced_back (admissions (log s)) /\
  (forall c t, head (admissions (log s)) = Some (c, t) ->
     t = lastRequestTime (limiter s)) /\
  (forall c deadline, pc_of s c = Some (AwaitTimer deadline) ->
     lastRequestTime (limiter s) + 500 <= deadline).

Definition consistent {Json : Type} (s : System Json) : Prop :=
  queue_ok s /\ (forall c, accounted s c) /\ flag_owned s.

(** ** Scenarios *)

Definition noQuery : string -> SearchParams := fun _ => [].

Definition day1 : string := "Tue Nov 03 2026".

Definition day2 : string := "Wed Nov 04 2026".

Definition served : FetchOutcome unit :=
  Responded (mkResponse 200%N (Fulfilled "{}") (Fulfilled tt)).

Definition demo (js : list (Job unit)) : option (System unit) :=
  run noQuery "key" js (boot day1 0).

(** Parameters as the list_cases tool passes them, with two filters left
    empty. *)
Definition list_cases_params : Entries :=
  [("offset", Some "0"); ("resultCount", Some "25");
   ("publishedBefore", Some ""); ("publishedAfter", None)].

(** Parameters that name the API key themselves. *)
Definition keyed_params : Entries :=
  [("offset", Some "0"); ("api_key", Some "other")].

(** Three overlapping calls: 1 is served, 2 waits in the queue, and 3 is
    called by a job that runs after 1 has released the slot and before the
    continuation of 2. *)
Definition overtaking : list (Job unit) :=
  [ Call 1 "/caseBrowse/en/" [] (mkClock 1000 day1);
    Call 2 "/caseBrowse/en/" [] (mkClock 1010 day1);
    FetchSettled 1 served;
    Call 3 "/caseBrowse/en/" [] (mkClock 1100 day1);
    Resume 2 1100;
    TimerFired 3 1500;
    TimerFired 2 1500 ].

(** As [overtaking], with a second waiter in the queue, and run until the
    last caller is admitted. *)
Definition barging : list (Job unit) :=
  [ Call 1 "/caseBrowse/en/" [] (mkClock 1000 day1);
    Call 2 "/caseBrowse/en/" [] (mkClock 1010 day1);
    Call 3 "/caseBrowse/en/" [] (mkClock 1020 day1);
    FetchSettled 1 served;
    Call 4 "/caseBrowse/en/" [] (mkClock 1100 day1);
    Resume 2 1100;
    TimerFired 4 1500;
    TimerFired 2 1500;
    FetchSettled 4 served;
    Resume 3 1600;
    TimerFired 3 2000 ].

(** Three overlapping calls, no call being made while a waiter is due to
    resume: each is served when its turn comes. *)
Definition in_order : list (Job unit) :=
  [ Call 1 "/caseBrowse/en/" [] (mkClock 1000 day1);
    Call 2 "/caseBrowse/en/" [] (mkClock 1010 day1);
    Call 3 "/caseBrowse/en/" [] (mkClock 1020 day1);
    FetchSettled 1 served;
    Resume 2 1100;
    TimerFired 2 1500;
    FetchSettled 2 served;
    Resume 3 1600;
    TimerFired 3 2000 ].

(** The same, and when all is served a fourth call on the next day. *)
Definition next_day : list (Job unit) :=
  in_order ++
  [ FetchSettled 3 served;
    Call 4 "/caseBrowse/en/" [] (mkClock 90000000 day2) ].

(** A single call, admitted and waiting for its response. *)
Definition one_call : list (Job unit) :=
  [ Call 1 "/caseBrowse/en/onca/" list_cases_params (mkClock 1000 day1) ].

Definition not_found : FetchOutcome unit :=
  Responded (mkResponse 404%N (Fulfilled "not found")
               (Rejected (mkError "Unexpected token"))).

(** One call served before the next is made, [n] times from caller [c] on,
    a second apart. *)
Fixpoint in_turn (n : nat) (c : Caller) : list (Job unit) :=
  match n with
  | O => []
  | S n =>
      Call c "/caseBrowse/en/" [] (mkClock (1000 * Z.pos c) day1)
        :: FetchSettled c served :: in_turn n (Pos.succ c)
  end.

(** 4998 calls in turn; then 4999 is admitted, 5000 and 5001 pass the quota
    test while 4999 is served, and each is admitted when its turn comes. *)
Definition overrun : list (Job unit) :=
  in_turn 4998 1 ++
  [ Call 4999 "/caseBrowse/en/" [] (mkClock 4999000 day1);
    Call 5000 "/caseBrowse/en/" [] (mkClock 4999010 day1);
    Call 5001 "/caseBrowse/en/" [] (mkClock 4999020 day1);
    FetchSettled 4999 served;
    Resume 5000 4999100;
    TimerFired 5000 4999500;
    FetchSettled 5000 served;
    Resume 5001 4999600;
    TimerFired 5001 5000000 ].

(** ** The tools of [createServer] *)

(** The enums of the input schemas. *)
Inductive Language := En | Fr.

Definition Language_toString (l : Language) : string :=
  match l with
  | En => "en"
  | Fr => "fr"
  end.

Inductive CitationType := CitedCases | CitingCases | CitedLegislations.

Definition CitationType_toString (t : CitationType) : string :=
  match t with
  | CitedCases => "citedCases"
  | CitingCases => "citingCases"
  | CitedLegislations => "citedLegislations"
  end.

(** A call of one of the seven tools, with the arguments its handler
    receives; an optional argument that was not given is [None]. *)
Inductive ToolCall :=
| ListCaseDatabases (language : Language)
| ListCases (language : Language) (databaseId : string)
    (offset resultCount : N)
    (publishedBefore publishedAfter : option string)
    (decisionDateBefore decisionDateAfter : option string)
| GetCase (language : Language) (databaseId caseId : string)
| GetCaseCitations (databaseId caseId : string) (citationType : CitationType)
| ListLegislationDatabases (language : Language)
| ListLegislation (language : Language) (databaseId : string)
| GetLegislation (language : Language) (databaseId legislationId : string).

(** What the input schema of list_cases admits for its two numbers: an
    integer from 0 on that the number type holds exactly, and an integer
    from 1 to 10000. *)
Definition schema_ok (t : ToolCall) : Prop :=
  match t with
  | ListCases _ _ offset resultCount _ _ _ _ =>
      (offset < 2 ^ 53)%N /\ (1 <= resultCount <= 10000)%N
  | _ => True
  end.

(** The path each handler passes to [canliiRequest]. *)
Definition toolPath (t : ToolCall) : string :=
  match t with
  | ListCaseDatabases language =>
      "/caseBrowse/" +:+ Language_toString language +:+ "/"
  | ListCases language databaseId _ _ _ _ _ _ =>
      "/caseBrowse/" +:+ Language_toString language +:+ "/"
        +:+ databaseId +:+ "/"
  | GetCase language databaseId caseId =>
      "/caseBrowse/" +:+ Language_toString language +:+ "/"
        +:+ databaseId +:+ "/" +:+ caseId +:+ "/"
  | GetCaseCitations databaseId caseId citationType =>
      "/caseCitator/en/" +:+ databaseId +:+ "/" +:+ caseId +:+ "/"
        +:+ CitationType_toString citationType
  | ListLegislationDatabases language =>
      "/legislationBrowse/" +:+ Language_toString language +:+ "/"
  | ListLegislation language databaseId =>
      "/legislationBrowse/" +:+ Language_toString language +:+ "/"
        +:+ databaseId +:+ "/"
  | GetLegislation language databaseId legislationId =>
      "/legislationBrowse/" +:+ Language_toString language +:+ "/"
        +:+ databaseId +:+ "/" +:+ legislationId +:+ "/"
  end.

(** The truth value of a string or [undefined] in a condition. *)
Definition truthy (v : option string) : bool :=
  match v with
  | Some s => negb (String.eqb s "")
  | None => false
  end.

(** [params[k] = v] on the entries of an object: the value of an existing
    key is replaced in place, a new key comes last. *)
Fixpoint assign (k : string) (v : option string) (params : Entries)
  : Entries :=
  match params with
  | [] => [(k, v)]
  | (k', v') :: rest =>
      if String.eqb k k' then (k, v) :: rest
      else (k', v') :: assign k v rest
  end.

(** [if (v) params[k] = v]. *)
Definition assignIf (k : string) (v : option string) (params : Entries)
  : Entries :=
  if truthy v then assign k v params else params.

(** The parameter mapping each handler passes to [canliiRequest]; only
    list_cases passes one, the others leave the default [{}]. *)
Definition toolParams (t : ToolCall) : Entries :=
  match t with
  | ListCases _ _ offset resultCount publishedBefore publishedAfter
      decisionDateBefore decisionDateAfter =>
      assignIf "decisionDateAfter" decisionDateAfter
        (assignIf "decisionDateBefore" decisionDateBefore
           (assignIf "publishedAfter" publishedAfter
              (assignIf "publishedBefore" publishedBefore
                 [("offset", Some (Number_toString offset));
                  ("resultCount", Some (Number_toString resultCount))])))
  | _ => []
  end.

(** The URL a tool call requests, once admitted. *)
Definition toolUrl (parseQuery : string -> SearchParams) (apiKey : string)
    (t : ToolCall) : URL :=
  buildUrl parseQuery apiKey (toolPath t) (toolParams t).

(** ** Start-up: the transport argument *)

(** [l.indexOf(x)], with [None] for -1. *)
Fixpoint indexOf (x : string) (l : list string) : option nat :=
  match l with
  | [] => None
  | y :: l => if String.eqb x y then Some O else S <$> indexOf x l
  end.

Definition includes (x : string) (l : list string) : bool :=
  existsb (String.eqb x) l.

(** [transportArg]; [None] is [undefined], read past the end of [argv]. *)
Definition transportArg (argv : list string) : option string :=
  if includes "--transport" argv then
    match indexOf "--transport" argv with
    | Some i => nth_error argv (i + 1)
    | None => nth_error argv 0
    end
  else Some "stdio".

(** The branch [main] takes. *)
Inductive Startup :=
| ServeStdio
| ServeHttp
| ExitUnknownTransport.   (* [process.exit(1)] *)

Definition startup (argv : list string) : Startup :=
  match transportArg argv with
  | Some t =>
      if String.eqb t "stdio" then ServeStdio
      else if String.eqb t "http" then ServeHttp
      else ExitUnknownTransport
  | None => ExitUnknownTransport
  end.

(** ** The bearer-token gate of the HTTP transport *)

(** Whether the middleware calls [next()] ([true]) or answers 401, given
    MCP_AUTH_TOKEN and the authorization header, each possibly absent. *)
Definition bearerGate (token authorization : option string) : bool :=
  if truthy token then
    match token with
    | Some t =>
        String.eqb (default "" authorization) ("Bearer " +:+ t)
    | None => true
    end
  else true.

(** ** More invariants of the event loop *)

(** An invocation that has passed the quota test and is not yet counted. *)
Definition pending {Json : Type} (p : Pc Json) : bool :=
  match p with
  | AwaitQueue | QueueResolved | AwaitTimer _ => true
  | _ => false
  end.

Definition any_pending {Json : Type} (s : System Json) : bool :=
  existsb (fun ci => pending (pc (snd ci))) (map_to_list (calls s)).

(** No call is made while an earlier one is between the quota test and its
    admission. *)
Definition unhurried {Json : Type} (j : Job Json) (s : System Json) : bool :=
  match j with
  | Call _ _ _ _ => negb (any_pending s)
  | _ => true
  end.

Fixpoint unhurried_run (parseQuery : string -> SearchParams)
    (API_KEY : string) {Json : Type} (js : list (Job Json))
    (s : System Json) : bool :=
  match js with
  | [] => true
  | j :: js =>
      unhurried j s &&
      match exec parseQuery API_KEY j s with
      | Some s' => unhurried_run parseQuery API_KEY js s'
      | None => true
      end
  end.

(** The counter is within the quota, below it while an invocation is
    pending, and one invocation at most is pending. *)
Definition within_quota {Json : Type} (s : System Json) : Prop :=
  dailyCount (limiter s) <= 5000 /\
  (forall c p, pc_of s c = Some p -> pending p = true ->
     dailyCount (limiter s) < 5000) /\
  (forall c1 c2 p1 p2,
     pc_of s c1 = Some p1 -> pc_of s c2 = Some p2 ->
     pending p1 = true -> pending p2 = true -> c1 = c2).

(** Every invocation suspended on its queue promise is in [queue], and
    while [queue] is not empty some invocation holds the slot or is due to
    resume. *)
Definition waiters_served {Json : Type} (s : System Json) : Prop :=
  (forall c, pc_of s c = Some AwaitQueue -> In c (queue (limiter s))) /\
  (queue (limiter s) <> [] ->
   exists c p, pc_of s c = Some p /\ busy p = true).

(** The timestamp of the last admission is not in the future, and a spacing
    timer ends at most 500 ms after it. *)
Definition timers_bounded {Json : Type} (s : System Json) : Prop :=
  0 <= lastRequestTime (limiter s) <= time s /\
  forall c deadline, pc_of s c = Some (AwaitTimer deadline) ->
    deadline <= lastRequestTime (limiter s) + 500.

(** One waiter at a time: each call is made when no earlier one is
    pending. *)
Definition one_waiter : list (Job unit) :=
  [ Call 1 "/caseBrowse/en/" [] (mkClock 1000 day1);
    Call 2 "/caseBrowse/en/" [] (mkClock 1010 day1);
    FetchSettled 1 served;
    Resume 2 1100;
    TimerFired 2 1500;
    Call 3 "/caseBrowse/en/" [] (mkClock 1510 day1);
    FetchSettled 2 served;
    Resume 3 1600;
    TimerFired 3 2000 ].

(** One call in flight and two waiting behind it. *)
Definition waiting : list (Job unit) :=
  [ Call 1 "/caseBrowse/en/" [] (mkClock 1000 day1);
    Call 2 "/caseBrowse/en/" [] (mkClock 1010 day1);
    Call 3 "/caseBrowse/en/" [] (mkClock 1020 day1) ].

(** A waiter resumed 100 ms after the last admission, on its timer. *)
Definition waiting_timer : list (Job unit) :=
  [ Call 1 "/caseBrowse/en/" [] (mkClock 1000 day1);
    Call 2 "/caseBrowse/en/" [] (mkClock 1010 day1);
    FetchSettled 1 served;
    Resume 2 1100 ].

(** A list_cases call with one filter given, one empty and two absent. *)
Definition browse_onca : ToolCall :=
  ListCases En "onca" 50 25 (Some "2024-01-01") (Some "") None None.

(** ** The order of the jobs

    [exec] leaves the order of the jobs to the host.  The platform is more
    specific.  It takes one task at a time from its event sources: a message
    read from the transport, a timer, the network.  When the code of the
    task returns, it runs the promise jobs queued meanwhile, and those they
    queue, until none is left; only then does it take the next task.

    [canliiRequest] is not exported: the tool handlers alone call it, and a
    handler is started by a message the transport has read.  [releaseSlot]
    runs in the finally block, once [fetch] or the reading of the body has
    settled: among the promise jobs of a task of the network.  The
    continuation that [next.resolve()] queues at line 59 is one more promise
    job of that task.  It is therefore run ahead of every [Call],
    [TimerFired] and [FetchSettled], which belong to later tasks. *)

(** Whether the platform can take job [j] next: a task has to wait for the
    promise job that is due. *)
Definition checkpoint {Json : Type} (j : Job Json) (s : System Json) : bool :=
  match j with
  | Resume _ _ => true
  | _ => negb (resumption_due s)
  end.

(** One job, taken in the platform's order. *)
Definition turn (parseQuery : string -> SearchParams) (API_KEY : string)
    {Json : Type} (j : Job Json) (s : System Json) : option (System Json) :=
  if checkpoint j s then exec parseQuery API_KEY j s else None.

Fixpoint turns (parseQuery : string -> SearchParams) (API_KEY : string)
    {Json : Type} (js : list (Job Json)) (s : System Json)
  : option (System Json) :=
  match js with
  | [] => Some s
  | j :: js =>
      match turn parseQuery API_KEY j s with
      | Some s => turns parseQuery API_KEY js s
      | None => None
      end
  end.

(** ** First come, first served *)

(** The invocation an entry of the log is about. *)
Definition subject (e : Event) : Caller :=
  match e with
  | EvCall c _ | EvEnqueue c | EvTake c | EvAdmit c _ | EvFetch c _
  | EvRelease c _ => c
  end.

(** The callers in the order of their calls, and the admitted callers in
    the order of their admissions, read off a log (latest entry first). *)
Fixpoint callers (l : list Event) : list Caller :=
  match l with
  | [] => []
  | EvCall c _ :: l => callers l ++ [c]
  | _ :: l => callers l
  end.

Fixpoint admitted (l : list Event) : list Caller :=
  match l with
  | [] => []
  | EvAdmit c _ :: l => admitted l ++ [c]
  | _ :: l => admitted l
  end.

(** Caller [c] passed the quota test: it entered the queue or took the
    slot. *)
Definition passed (l : list Event) (c : Caller) : bool :=
  existsb (fun e => is_enqueue c e || is_take c e) l.

(** The callers that passed the quota test, in the order of their calls. *)
Definition arrivals (l : list Event) : list Caller :=
  List.filter (passed l) (callers l).

Arguments passed : simpl never.
Arguments arrivals : simpl never.

(** In a history, an entry that satisfies [p] comes before one that
    satisfies [q]. *)
Definition before (p q : Event -> bool) (h : list Event) : Prop :=
  exists h1 e1 h2 e2 h3,
    h = h1 ++ e1 :: h2 ++ e2 :: h3 /\ p e1 = true /\ q e2 = true.

(** Every entry of the log is about an invocation that exists, and no
    caller is called twice. *)
Definition recorded {Json : Type} (s : System Json) : Prop :=
  (forall e, In e (log s) -> calls s !! subject e <> None) /\
  List.NoDup (callers (log s)).

(** An entry [EvEnqueue c] of a log sits right on top of [EvCall c]. *)
Fixpoint well_called (l : list Event) : Prop :=
  match l with
  | [] => True
  | EvEnqueue c :: l' =>
      match l' with
      | EvCall c' _ :: _ => c = c'
      | _ => False
      end /\ well_called l'
  | _ :: l' => well_called l'
  end.

(** The arrivals are, in order: the callers admitted so far; the caller
    waiting for its spacing timer; the waiter due to resume; the queue. *)
Definition in_line {Json : Type} (s : System Json) : Prop :=
  exists timer due : list Caller,
    arrivals (log s)
      = admitted (log s) ++ timer ++ due ++ queue (limiter s) /\
    (forall c, In c timer <-> exists d, pc_of s c = Some (AwaitTimer d)) /\
    (forall c, In c due <-> pc_of s c = Some QueueResolved) /\
    (length (timer ++ due) <= 1)%nat.

(** What the platform's order keeps true. *)
Definition orderly {Json : Type} (s : System Json) : Prop :=
  consistent s /\ serial s /\ paced s /\ waiters_served s /\
  recorded s /\ well_called (log s) /\ in_line s.

(** ** More scenarios *)

(** One call is served and two wait; the first completes: the slot is
    released and the continuation of caller 2 is due. *)
Definition handing_over : list (Job unit) :=
  waiting ++ [ FetchSettled 1 served ].

(** Callers 2 and 3 wait behind caller 1; caller 4 calls when caller 2 has
    resumed, and waits behind caller 3; all four are admitted. *)
Definition queueing : list (Job unit) :=
  [ Call 1 "/caseBrowse/en/" [] (mkClock 1000 day1);
    Call 2 "/caseBrowse/en/" [] (mkClock 1010 day1);
    Call 3 "/caseBrowse/en/" [] (mkClock 1020 day1);
    FetchSettled 1 served;
    Resume 2 1100;
    Call 4 "/caseBrowse/en/" [] (mkClock 1200 day1);
    TimerFired 2 1500;
    FetchSettled 2 served;
    Resume 3 1600;
    TimerFired 3 2000;
    FetchSettled 3 served;
    Resume 4 2100;
    TimerFired 4 2500 ].



(** ** Search parameters *)

Section SearchParamsFacts.

Implicit Types (k name value : string) (l : SearchParams).

Lemma filter_other_name k name l :
  k <> name ->
  List.filter (fun p => String.eqb k (fst p))
    (List.filter (fun p => negb (String.eqb name (fst p))) l)
  = List.filter (fun p => String.eqb k (fst p)) l.
Proof.
  intros Hne. induction l as [|[a b] l IH]; simpl; [reflexivity|].
  destruct (String.eqb name a) eqn:Hna; simpl.
  - apply String.eqb_eq in Hna. subst a.
    apply String.eqb_neq in Hne. rewrite Hne. exact IH.
  - destruct (String.eqb k a); simpl; rewrite IH; reflexivity.
Qed.

Lemma filter_same_name name l :
  List.filter (fun p => String.eqb name (fst p))
    (List.filter (fun p => negb (String.eqb name (fst p))) l) = [].
Proof.
  induction l as [|[a b] l IH]; simpl; [reflexivity|].
  destruct (String.eqb name a) eqn:Hna; simpl; [exact IH|].
  rewrite Hna. exact IH.
Qed.

Lemma getAll_set_same name value l :
  URLSearchParams_getAll name (URLSearchParams_set name value l) = [value].
Proof.
  unfold URLSearchParams_getAll.
  induction l as [|[a b] l IH]; simpl.
  - rewrite String.eqb_refl. reflexivity.
  - destruct (String.eqb name a) eqn:Hna; simpl.
    + rewrite String.eqb_refl. simpl. rewrite filter_same_name. reflexivity.
    + rewrite Hna. exact IH.
Qed.

Lemma getAll_set_other k name value l :
  k <> name ->
  URLSearchParams_getAll k (URLSearchParams_set name value l)
  = URLSearchParams_getAll k l.
Proof.
  intros Hne. unfold URLSearchParams_getAll.
  pose proof Hne as Hb. apply String.eqb_neq in Hb.
  induction l as [|[a b] l IH]; simpl.
  - rewrite Hb. reflexivity.
  - destruct (String.eqb name a) eqn:Hna; simpl.
    + apply String.eqb_eq in Hna. subst a. rewrite Hb.
      rewrite filter_other_name by exact Hne. reflexivity.
    + destruct (String.eqb k a); simpl; rewrite IH; reflexivity.
Qed.

Lemma get_head_getAll name l :
  URLSearchParams_get name l = head (URLSearchParams_getAll name l).
Proof.
  unfold URLSearchParams_getAll.
  induction l as [|[a b] l IH]; simpl; [reflexivity|].
  destruct (String.eqb name a); simpl; [reflexivity | exact IH].
Qed.

End SearchParamsFacts.

(** ** The outbound URL *)

Section RequestFacts.

Variable parseQuery : string -> SearchParams.

Implicit Types (u : URL) (params : Entries) (k v : string).

Lemma setEntry_sets u k v :
  v <> "" -> sent_as k (setEntry u (k, Some v)) = [v].
Proof.
  intros Hv. unfold setEntry, sent_as.
  apply String.eqb_neq in Hv. rewrite Hv. simpl.
  apply getAll_set_same.
Qed.

Lemma setEntry_other u k e :
  (forall v, e = (k, Some v) -> v = "") ->
  sent_as k (setEntry u e) = sent_as k u.
Proof.
  intros He. destruct e as [k' [v'|]]; simpl; [|reflexivity].
  destruct (String.eqb v' "") eqn:Hv; simpl; [reflexivity|].
  unfold sent_as. simpl. apply getAll_set_other.
  intros ->. apply String.eqb_neq in Hv. apply Hv, He. reflexivity.
Qed.

Lemma loop_other params u k :
  (forall v, In (k, Some v) params -> v = "") ->
  sent_as k (fold_left setEntry params u) = sent_as k u.
Proof.
  revert u. induction params as [|e params IH]; intros u Hk; simpl.
  - reflexivity.
  - rewrite IH.
    + apply setEntry_other. intros v ->. apply Hk. left. reflexivity.
    + intros v Hin. apply Hk. right. exact Hin.
Qed.

Lemma loop_sets params u k v :
  List.NoDup (List.map fst params) ->
  In (k, Some v) params -> v <> "" ->
  sent_as k (fold_left setEntry params u) = [v].
Proof.
  revert u. induction params as [|e params IH]; intros u Hnd Hin Hv.
  - destruct Hin.
  - simpl. apply List.NoDup_cons_iff in Hnd as [Hfresh Hnd].
    destruct Hin as [-> | Hin].
    + rewrite loop_other.
      * apply setEntry_sets. exact Hv.
      * intros v' Hin'. exfalso. apply Hfresh. simpl.
        apply (List.in_map fst) in Hin'. exact Hin'.
    + apply IH; assumption.
Qed.

Lemma loop_single params u k :
  length (sent_as k u) = 1%nat ->
  length (sent_as k (fold_left setEntry params u)) = 1%nat.
Proof.
  revert u. induction params as [|[k' [v'|]] params IH]; intros u Hu; simpl.
  - exact Hu.
  - apply IH. destruct (String.eqb v' ""); simpl; [exact Hu|].
    unfold sent_as. simpl. destruct (String.eqb k k') eqn:Hk.
    + apply String.eqb_eq in Hk. subst k'. rewrite getAll_set_same.
      reflexivity.
    + apply String.eqb_neq in Hk. rewrite getAll_set_other by exact Hk.
      exact Hu.
  - apply IH. exact Hu.
Qed.

(** C9. Of the entries of the parameter mapping, exactly those whose value
    is neither undefined nor the empty string are set on the outbound URL:
    such an entry is carried with its value and once; for a name whose entry
    is undefined or empty the loop sets nothing, so the URL carries for it
    what it carried before the loop; and api_key is always carried. *)
Theorem C9_query_parameter_filtering (apiKey path : string) params :
  List.NoDup (List.map fst params) ->
  let before :=
    URL_set "api_key" apiKey (URL_new parseQuery (BASE_URL +:+ path)) in
  let url := buildUrl parseQuery apiKey path params in
  (forall k v, In (k, Some v) params -> v <> "" -> sent_as k url = [v]) /\
  (forall k, In (k, None) params \/ In (k, Some "") params ->
     sent_as k url = sent_as k before) /\
  (forall k, (forall v, In (k, Some v) params -> v = "") ->
     sent_as k url = sent_as k before) /\
  (exists v, sent_as "api_key" url = [v]).
Proof.
  intros Hnd before url. subst before url. unfold buildUrl.
  assert (Hother : forall k, (forall v, In (k, Some v) params -> v = "") ->
    sent_as k (fold_left setEntry params
      (URL_set "api_key" apiKey (URL_new parseQuery (BASE_URL +:+ path))))
    = sent_as k
        (URL_set "api_key" apiKey (URL_new parseQuery (BASE_URL +:+ path)))).
  { intros k Hk. apply loop_other. exact Hk. }
  split; [|split; [|split]].
  - intros k v Hin Hv. apply loop_sets; assumption.
  - intros k Hk. apply Hother. intros v Hin.
    destruct (string_dec v "") as [Hv|Hv]; [exact Hv|]. exfalso.
    pose proof (loop_sets params
      (URL_set "api_key" apiKey (URL_new parseQuery (BASE_URL +:+ path)))
      k v Hnd Hin Hv) as Hset.
    assert (Hfst : forall (o : option string), In (k, o) params ->
              o = Some v).
    { intros o Ho. clear Hset Hother Hk.
      induction params as [|e ps IH]; [destruct Hin|].
      simpl in Hnd. apply List.NoDup_cons_iff in Hnd as [Hfresh Hnd].
      destruct Hin as [-> | Hin], Ho as [He | Ho].
      - congruence.
      - exfalso. apply Hfresh. apply (List.in_map fst) in Ho. exact Ho.
      - subst e. exfalso. apply Hfresh.
        apply (List.in_map fst) in Hin. exact Hin.
      - apply IH; assumption. }
    destruct Hk as [Hk|Hk]; apply Hfst in Hk; congruence.
  - exact Hother.
  - assert (Hlen : length (sent_as "api_key" (fold_left setEntry params
      (URL_set "api_key" apiKey (URL_new parseQuery (BASE_URL +:+ path)))))
      = 1%nat).
    { apply loop_single. unfold sent_as. simpl.
      rewrite getAll_set_same. reflexivity. }
    destruct (sent_as "api_key" _) as [|v [|w l]]; simpl in Hlen;
      try discriminate.
    exists v. reflexivity.
Qed.

(** C10. When the parameter mapping has the key api_key with a non-empty
    value, the outbound URL carries that value as its only api_key, whatever
    the configured key is: the loop applies the caller's entries after the
    configured key, with [set]. *)
Theorem C10_caller_overrides_api_key (apiKey path v : string) params :
  List.NoDup (List.map fst params) ->
  In ("api_key", Some v) params -> v <> "" ->
  let url := buildUrl parseQuery apiKey path params in
  URLSearchParams_get "api_key" (searchParams url) = Some v /\
  sent_as "api_key" url = [v].
Proof.
  intros Hnd Hin Hv url. subst url. unfold buildUrl.
  assert (H : sent_as "api_key" (fold_left setEntry params
      (URL_set "api_key" apiKey (URL_new parseQuery (BASE_URL +:+ path))))
      = [v]) by (apply loop_sets; assumption).
  split; [|exact H].
  rewrite get_head_getAll. unfold sent_as in H. rewrite H. reflexivity.
Qed.

End RequestFacts.

Lemma C9_witness :
  List.NoDup (List.map fst list_cases_params) /\
  sent_as "offset" (buildUrl noQuery "key" "/caseBrowse/en/onca/"
                      list_cases_params) = ["0"] /\
  sent_as "publishedBefore" (buildUrl noQuery "key" "/caseBrowse/en/onca/"
                               list_cases_params) = [] /\
  sent_as "publishedAfter" (buildUrl noQuery "key" "/caseBrowse/en/onca/"
                              list_cases_params) = [] /\
  (exists v, sent_as "api_key" (buildUrl noQuery "key" "/caseBrowse/en/onca/"
                                  list_cases_params) = [v]).
Proof.
  assert (Hnd : List.NoDup (List.map fst list_cases_params)).
  { simpl. repeat constructor; simpl; intuition discriminate. }
  destruct (C9_query_parameter_filtering noQuery "key" "/caseBrowse/en/onca/"
              list_cases_params Hnd) as (Hset & Hskip & _ & Hkey).
  split; [exact Hnd|].
  split; [apply Hset; [simpl; tauto | discriminate]|].
  split; [rewrite (Hskip "publishedBefore"); [reflexivity | simpl; tauto]|].
  split; [rewrite (Hskip "publishedAfter"); [reflexivity | simpl; tauto]|].
  exact Hkey.
Defined.

Lemma C10_witness :
  List.NoDup (List.map fst keyed_params) /\
  In ("api_key", Some "other") keyed_params /\
  URLSearchParams_get "api_key"
    (searchParams (buildUrl noQuery "key" "/caseBrowse/en/onca/"
                     keyed_params)) = Some "other" /\
  sent_as "api_key" (buildUrl noQuery "key" "/caseBrowse/en/onca/"
                       keyed_params) = ["other"].
Proof.
  assert (Hnd : List.NoDup (List.map fst keyed_params)).
  { simpl. repeat constructor; simpl; intuition discriminate. }
  assert (Hin : In ("api_key", Some "other") keyed_params)
    by (simpl; tauto).
  split; [exact Hnd|]. split; [exact Hin|].
  apply (C10_caller_overrides_api_key noQuery "key" "/caseBrowse/en/onca/"
           "other" keyed_params Hnd Hin).
  discriminate.
Defined.

(** ** The upstream response *)

Lemma append_empty_r (s : string) : s +:+ "" = s.
Proof.
  induction s as [|a s IH]; [reflexivity|].
  change (String a (s +:+ "") = String a s). rewrite IH. reflexivity.
Qed.

Lemma append_associative (a b c : string) : (a +:+ b) +:+ c = a +:+ b +:+ c.
Proof.
  induction a as [|x a IH]; [reflexivity|].
  change (String x ((a +:+ b) +:+ c) = String x (a +:+ b +:+ c)).
  rewrite IH. reflexivity.
Qed.

Lemma upstreamError_status (st : N) (body : string) :
  contains (message (upstreamError st body)) (Number_toString st).
Proof. exists "CanLII API ", (": " +:+ body). reflexivity. Qed.

Lemma upstreamError_body (st : N) (body : string) :
  contains (message (upstreamError st body)) body.
Proof.
  exists ("CanLII API " +:+ Number_toString st +:+ ": "), "".
  rewrite append_empty_r, !append_associative. reflexivity.
Qed.

Lemma ok_2xx {Json : Type} (res : Response Json) :
  ok res = true <-> (200 <= status res <= 299)%N.
Proof.
  unfold ok. rewrite andb_true_iff, !N.leb_le. reflexivity.
Qed.

(** ** The first segment of [acquireSlot] *)


Lemma reset_capped (today : string) (g : Limiter) :
  5000 <= dailyCount (resetDailyIfNeeded today g) ->
  resetDailyIfNeeded today g = g /\
  String.eqb today (dailyResetDate g) = true.
Proof.
  unfold resetDailyIfNeeded.
  destruct (String.eqb today (dailyResetDate g)); simpl; [auto|].
  lia.
Qed.

Lemma reset_frame (today : string) (g : Limiter) :
  lastRequestTime (resetDailyIfNeeded today g) = lastRequestTime g /\
  inFlight (resetDailyIfNeeded today g) = inFlight g /\
  queue (resetDailyIfNeeded today g) = queue g.
Proof.
  unfold resetDailyIfNeeded.
  destruct (String.eqb today (dailyResetDate g)); simpl; auto.
Qed.

Lemma enter_throws c today g :
  5000 <= dailyCount (resetDailyIfNeeded today g) ->
  acquireSlot_enter c today g = (g, Throws quotaError).
Proof.
  intros H. unfold acquireSlot_enter.
  destruct (reset_capped today g H) as [E _]. rewrite E in H |- *.
  cbv zeta. apply Z.leb_le in H. rewrite H. reflexivity.
Qed.


Section CallFacts.

Variable parseQuery : string -> SearchParams.
Variable API_KEY : string.
Context {Json : Type}.

Implicit Types (s : System Json) (c : Caller) (clk : Clock).

(** C4. A call that finds the counter at 5000 or more after the reset step
    throws the quota error at once: the limiter is left as it was (nothing
    enqueued, flag, timestamp and counter untouched), the invocation of
    [canliiRequest] is rejected with that error, and the log gains the call
    alone: no request is built or sent and [releaseSlot] is not run. *)
Theorem C4_quota_exceeded_is_atomic s c path params clk :
  calls s !! c = None ->
  time s <= now clk ->
  5000 <= dailyCount (resetDailyIfNeeded (today clk) (limiter s)) ->
  acquireSlot_enter c (today clk) (limiter s)
    = (limiter s, Throws quotaError) /\
  exec parseQuery API_KEY (Call c path params clk) s
    = Some (mkSystem (limiter s)
              (<[c := mkInvocation path params (Returned (Rejected quotaError))]>
                 (calls s))
              (EvCall c false :: log s) (now clk)).
Proof.
  intros Hfresh Htime Hcap.
  pose proof (enter_throws c (today clk) (limiter s) Hcap) as Henter.
  split; [exact Henter|].
  destruct (reset_capped (today clk) (limiter s) Hcap) as [_ Hsame].
  unfold exec. rewrite Hfresh.
  apply Z.leb_le in Htime. rewrite Htime. simpl.
  rewrite Henter, Hsame. reflexivity.
Qed.


End CallFacts.

(** ** Runs of the event loop *)

Section RunFacts.

Variable parseQuery : string -> SearchParams.
Variable API_KEY : string.
Context {Json : Type}.

Implicit Types (s : System Json) (c w : Caller) (j : Job Json).

Local Abbreviation step := (exec parseQuery API_KEY).
Local Abbreviation steps := (run parseQuery API_KEY).

Lemma run_invariant (P : System Json -> Prop) :
  (forall j s s', P s -> step j s = Some s' -> P s') ->
  forall js s s', P s -> steps js s = Some s' -> P s'.
Proof.
  intros Hstep js. induction js as [|j js IH]; intros s s' Hs Hrun.
  - simpl in Hrun. congruence.
  - simpl in Hrun. destruct (step j s) as [s1|] eqn:Hj; [|discriminate].
    eapply IH; [|exact Hrun]. eapply Hstep; eassumption.
Qed.

Lemma run_app js1 js2 s :
  steps (js1 ++ js2) s = steps js1 s ≫= steps js2.
Proof.
  revert s. induction js1 as [|j js1 IH]; intros s; simpl; [reflexivity|].
  destruct (step j s); simpl; [apply IH | reflexivity].
Qed.

Lemma pc_of_insert (m : gmap positive (Invocation Json)) c
    (i : Invocation Json) c0 l t g :
  pc_of (mkSystem g (<[c := i]> m) l t) c0
  = if decide (c = c0) then Some (pc i) else pc <$> m !! c0.
Proof.
  unfold pc_of. simpl. rewrite lookup_insert.
  destruct (decide (c = c0)); reflexivity.
Qed.

Lemma lookup_wake (next : option positive) (m : gmap positive (Invocation Json)) c0 :
  wake next m !! c0
  = if decide (next = Some c0) then at_pc QueueResolved <$> m !! c0
    else m !! c0.
Proof.
  unfold wake. destruct next as [w|].
  - rewrite lookup_alter. destruct (decide (w = c0)) as [->|Hne].
    + rewrite decide_True by reflexivity. reflexivity.
    + rewrite decide_False by congruence. reflexivity.
  - rewrite decide_False by discriminate. reflexivity.
Qed.

Lemma releaseSlot_spec (g : Limiter) :
  inFlight (fst (releaseSlot g)) = false /\
  dailyCount (fst (releaseSlot g)) = dailyCount g /\
  dailyResetDate (fst (releaseSlot g)) = dailyResetDate g /\
  lastRequestTime (fst (releaseSlot g)) = lastRequestTime g /\
  queue (fst (releaseSlot g)) = tail (queue g) /\
  snd (releaseSlot g) = head (queue g).
Proof. unfold releaseSlot. destruct (queue g); simpl; auto 10. Qed.

Lemma enter_spec c today (g : Limiter) :
  inFlight (fst (acquireSlot_enter c today g)) = inFlight g /\
  lastRequestTime (fst (acquireSlot_enter c today g)) = lastRequestTime g /\
  match snd (acquireSlot_enter c today g) with
  | Throws e =>
      e = quotaError /\ queue (fst (acquireSlot_enter c today g)) = queue g
  | Enqueued =>
      inFlight g = true /\
      queue (fst (acquireSlot_enter c today g)) = queue g ++ [c]
  | Proceeds =>
      inFlight g = false /\
      queue (fst (acquireSlot_enter c today g)) = queue g
  end.
Proof.
  unfold acquireSlot_enter.
  destruct (reset_frame today g) as (Ht & Hf & Hq).
  cbv zeta. destruct (5000 <=? _); simpl; [auto|].
  destruct (inFlight (resetDailyIfNeeded today g)) eqn:Hfl; simpl;
    rewrite ?Hq; rewrite <- ?Hf; auto.
Qed.

Lemma pc_of_calls s c0 : pc_of s c0 = pc <$> calls s !! c0.
Proof. reflexivity. Qed.

Lemma queued_elsewhere s c w :
  queue_ok s -> pc_of s c <> Some AwaitQueue ->
  In w (queue (limiter s)) -> c <> w.
Proof.
  intros [_ Hq] Hc Hw ->. apply Hc, Hq, Hw.
Qed.

Lemma exec_queue_ok j s s' : queue_ok s -> step j s = Some s' -> queue_ok s'.
Proof.
  intros Hok Hexec. pose proof Hok as [Hnd Hq].
  unfold exec, take, granted in Hexec.
  repeat case_match; simplify_eq; simpl in *.
  all: unfold queue_ok; simpl.
  all: try match goal with
       | H : snd (acquireSlot_enter ?c ?t ?g) = _ |- _ =>
           destruct (enter_spec c t g) as (_ & _ & Hent);
           rewrite H in Hent; destruct Hent as [Hent1 Hent2];
           rewrite Hent2
       end.
  all: try match goal with
       | |- context [queue (fst (releaseSlot ?g))] =>
           destruct (releaseSlot_spec g) as (_ & _ & _ & _ & Hrq & Hrn);
           rewrite Hrq
       end.
  all: try match goal with
       | H : calls ?s0 !! ?c = None |- _ =>
           assert (Hout : forall w, In w (queue (limiter s0)) -> c <> w)
             by (intros w Hw; apply (queued_elsewhere s0 c w Hok);
                 [rewrite pc_of_calls, H; discriminate | exact Hw])
       | H : calls ?s0 !! ?c = Some ?i, Hp : pc ?i = _ |- _ =>
           assert (Hout : forall w, In w (queue (limiter s0)) -> c <> w)
             by (intros w Hw; apply (queued_elsewhere s0 c w Hok);
                 [rewrite pc_of_calls, H; simpl; rewrite Hp; discriminate
                 | exact Hw])
       end.
  (* Enqueued *)
  2: { split.
       - apply List.NoDup_app; [exact Hnd | repeat constructor; intros [] |].
         intros x Hx [<-|[]]. exact (Hout c Hx eq_refl).
       - intros w Hw. rewrite pc_of_insert. apply List.in_app_iff in Hw.
         destruct (decide (c = w)) as [|Hne]; [reflexivity|].
         destruct Hw as [Hw|[Hw|[]]]; [apply Hq, Hw | congruence]. }
  all: try (split; [exact Hnd|]; intros w Hw; rewrite pc_of_insert;
            rewrite decide_False by (apply Hout, Hw); apply Hq, Hw).
  destruct (queue (limiter s)) as [|h q] eqn:Hqe; simpl in *.
  - split; [constructor | intros w []].
  - apply List.NoDup_cons_iff in Hnd as [Hh Hnd]. split; [exact Hnd|].
    intros w Hw. unfold pc_of. simpl. rewrite Hrn, lookup_wake.
    rewrite decide_False by (intros [= ->]; exact (Hh Hw)).
    rewrite lookup_insert_ne by (apply Hout; right; exact Hw).
    apply Hq. right. exact Hw.
Qed.

Lemma exec_accounted j s s' :
  queue_ok s -> (forall c, accounted s c) -> step j s = Some s' ->
  forall c, accounted s' c.
Proof.
  intros Hok Hacc Hexec c0. pose proof Hok as [Hnd Hq].
  pose proof (Hacc c0) as Hc0.
  unfold exec, take, granted in Hexec.
  repeat case_match; simplify_eq; simpl in *.
  all: try match goal with
       | H : snd (acquireSlot_enter ?c ?t ?g) = _ |- _ =>
           destruct (enter_spec c t g) as (_ & _ & Hent);
           rewrite H in Hent; destruct Hent as [Hent1 Hent2]
       end.
  all: match goal with
       | H : calls ?s0 !! ?c = _ |- _ =>
           pose proof (Hacc c) as Hc; unfold accounted in Hc;
           rewrite pc_of_calls, H in Hc; simpl in Hc
       end.
  all: try match goal with
       | Hp : pc ?i = _ |- _ => rewrite Hp in Hc
       end.
  all: unfold accounted in *.
  1-7: rewrite pc_of_insert; simpl.
  1-7: destruct (decide (_ = c0)) as [->|Hne].
  all: unfold tally in *; simpl in *.
  all: rewrite ?Pos.eqb_refl; simpl.
  all: repeat match goal with
       | Hne : ?a <> ?b |- context [Pos.eqb ?b ?a] =>
           rewrite (proj2 (Pos.eqb_neq b a)) by congruence; simpl
       end.
  all: try (rewrite pc_of_calls in Hc0; exact Hc0).
  all: try congruence.
  - right. split; congruence.
  - unfold pc_of. simpl.
    destruct (releaseSlot_spec (limiter s)) as (_ & _ & _ & _ & _ & Hrn).
    rewrite Hrn, lookup_wake.
    assert (Hcq : forall w, In w (queue (limiter s)) -> c <> w).
    { intros w Hw. apply (queued_elsewhere s c w Hok); [|exact Hw].
      rewrite pc_of_calls, H0. simpl. rewrite H1. discriminate. }
    destruct (decide (head (queue (limiter s)) = Some c0)) as [Hhd|Hhd].
    + assert (Hin : In c0 (queue (limiter s))).
      { destruct (queue (limiter s)); [discriminate|].
        simpl in Hhd. left. congruence. }
      pose proof (Hcq c0 Hin) as Hne. pose proof (Hq c0 Hin) as Hpc.
      rewrite lookup_insert_ne by exact Hne.
      rewrite Hpc in Hc0. rewrite pc_of_calls in Hpc.
      destruct (calls s !! c0) as [i0|]; [|discriminate]. simpl.
      rewrite (proj2 (Pos.eqb_neq c0 c)) by congruence. exact Hc0.
    + rewrite lookup_insert. destruct (decide (c = c0)) as [->|Hne]; simpl.
      * rewrite Pos.eqb_refl. left. simpl. congruence.
      * rewrite (proj2 (Pos.eqb_neq c0 c)) by congruence.
        rewrite pc_of_calls in Hc0. exact Hc0.
Qed.

Lemma exec_flag_owned j s s' :
  queue_ok s -> flag_owned s -> step j s = Some s' -> flag_owned s'.
Proof.
  intros Hok Hflag Hexec.
  unfold exec, take, granted in Hexec.
  repeat case_match; simplify_eq; simpl in *.
  all: unfold flag_owned, holds in *; simpl.
  all: try match goal with
       | H : snd (acquireSlot_enter ?c ?t ?g) = _ |- _ =>
           destruct (enter_spec c t g) as (Hfl & _ & _); rewrite ?Hfl
       end.
  1-2: intros Hin; destruct (Hflag Hin) as (c1 & p & Hp & Hh);
       exists c1, p; rewrite pc_of_insert;
       destruct (decide (c = c1)) as [->|Hne];
       [rewrite pc_of_calls, H0 in Hp; discriminate | auto].
  1-5: intros _; exists c; eexists; rewrite pc_of_insert;
       rewrite decide_True by reflexivity; simpl; split; reflexivity.
  destruct (releaseSlot_spec (limiter s)) as (Hfl & _). rewrite Hfl.
  discriminate.
Qed.

Lemma exec_consistent j s s' :
  consistent s -> step j s = Some s' -> consistent s'.
Proof.
  intros (Hq & Hacc & Hfl) Hexec. split; [|split].
  - eapply exec_queue_ok; eassumption.
  - eapply exec_accounted; eassumption.
  - eapply exec_flag_owned; eassumption.
Qed.

Lemma boot_consistent loaded t0 : consistent (boot (Json := Json) loaded t0).
Proof.
  split; [|split].
  - split; [constructor | intros w []].
  - intros c. reflexivity.
  - intros Hf. discriminate.
Qed.

Lemma reachable_consistent loaded t0 js s :
  steps js (boot loaded t0) = Some s -> consistent s.
Proof.
  apply (run_invariant consistent).
  - intros j s0 s1. apply exec_consistent.
  - apply boot_consistent.
Qed.

Lemma settle_returns s c (o : FetchOutcome Json) :
  queue_ok s -> pc_of s c = Some AwaitFetch ->
  exists s',
    step (FetchSettled c o) s = Some s' /\
    pc_of s' c = Some (Returned (respond o)) /\
    log s' = EvRelease c (head (queue (limiter s))) :: log s /\
    inFlight (limiter s') = false.
Proof.
  intros Hok Hpc. rewrite pc_of_calls in Hpc. unfold exec.
  destruct (calls s !! c) as [i|] eqn:Hc; [|discriminate].
  simpl in Hpc. injection Hpc as Hpc. rewrite Hpc.
  eexists. split; [reflexivity|].
  destruct (releaseSlot_spec (limiter s)) as (Hfl & _ & _ & _ & _ & Hrn).
  split; [|split; [simpl; rewrite Hrn; reflexivity | exact Hfl]].
  unfold pc_of. simpl. rewrite Hrn, lookup_wake.
  rewrite decide_False.
  - rewrite lookup_insert_eq. reflexivity.
  - intros Hhd. destruct Hok as [_ Hq].
    assert (Hin : In c (queue (limiter s))).
    { destruct (queue (limiter s)); [discriminate|].
      simpl in Hhd. left. congruence. }
    apply Hq in Hin. rewrite pc_of_calls, Hc in Hin. simpl in Hin.
    congruence.
Qed.

(** C5. Every exit of the try region runs [releaseSlot] once.  In any state
    the event loop can reach: an invocation waiting for its response
    returns, whatever [fetch] settles to, through a job that runs
    [releaseSlot] and leaves the flag cleared; an invocation that was
    admitted and has returned has released exactly once; no invocation ever
    releases twice, nor before it returns; and a set flag always belongs to
    an invocation that has yet to release it, so no returned invocation
    leaves the slot taken. *)
Theorem C5_slot_released_exactly_once loaded t0 js s :
  steps js (boot loaded t0) = Some s ->
  (forall c, pc_of s c = Some AwaitFetch ->
     forall o, exists s',
       step (FetchSettled c o) s = Some s' /\
       pc_of s' c = Some (Returned (respond o)) /\
       log s' = EvRelease c (head (queue (limiter s))) :: log s /\
       inFlight (limiter s') = false) /\
  (forall c r, pc_of s c = Some (Returned r) ->
     count (is_admit c) (log s) = 1%nat ->
     count (is_release c) (log s) = 1%nat) /\
  (forall c, (count (is_release c) (log s) <= 1)%nat) /\
  (forall c, count (is_release c) (log s) = 1%nat ->
     exists r, pc_of s c = Some (Returned r)) /\
  (inFlight (limiter s) = true -> exists c, holds s c).
Proof.
  intros Hrun.
  destruct (reachable_consistent loaded t0 js s Hrun) as (Hq & Hacc & Hfl).
  split; [|split; [|split; [|split]]].
  - intros c Hpc o. apply settle_returns; assumption.
  - intros c r Hpc Hadm. pose proof (Hacc c) as Hc.
    unfold accounted, tally in Hc. rewrite Hpc in Hc.
    destruct Hc as [Hc | [Hc _]]; congruence.
  - intros c. pose proof (Hacc c) as Hc. unfold accounted, tally in Hc.
    destruct (pc_of s c) as [[| | | |r]|];
      try destruct Hc as [Hc | [Hc _]];
      injection Hc as _ _ ->; lia.
  - intros c Hrel. pose proof (Hacc c) as Hc. unfold accounted, tally in Hc.
    destruct (pc_of s c) as [[| | | |r]|];
      try (injection Hc as _ _ Hc; congruence).
    exists r. reflexivity.
  - exact Hfl.
Qed.

(** C8. In any state the event loop can reach, an invocation waiting for
    its response returns what lines 77-82 make of the outcome of [fetch]:
    for a status outside 200-299 whose body reads [body], an error whose
    message holds the decimal status and then the body, unchanged to its
    end; for a transport error, that error; for a status in 200-299 whose
    body parses, the parsed payload itself. *)
Theorem C8_upstream_failure_mapping loaded t0 js s c :
  steps js (boot loaded t0) = Some s ->
  pc_of s c = Some AwaitFetch ->
  (forall o, exists s',
     step (FetchSettled c o) s = Some s' /\
     pc_of s' c = Some (Returned (respond o))) /\
  (forall (res : Response Json) body,
     ~ (200 <= status res <= 299)%N -> text res = Fulfilled body ->
     exists e,
       respond (Responded res) = Rejected e /\
       message e
         = "CanLII API " +:+ Number_toString (status res) +:+ ": " +:+ body /\
       contains (message e) (Number_toString (status res)) /\
       contains (message e) body) /\
  (forall e, respond (@NetworkError Json e) = Rejected e) /\
  (forall (res : Response Json) payload,
     (200 <= status res <= 299)%N -> json res = Fulfilled payload ->
     respond (Responded res) = Fulfilled payload).
Proof.
  intros Hrun Hpc.
  destruct (reachable_consistent loaded t0 js s Hrun) as (Hq & _ & _).
  split; [|split; [|split]].
  - intros o. destruct (settle_returns s c o Hq Hpc) as (s' & H1 & H2 & _).
    exists s'. split; assumption.
  - intros res body Hst Htxt. exists (upstreamError (status res) body).
    split; [|split; [reflexivity | split]].
    + unfold respond. destruct (ok res) eqn:Hok.
      * apply ok_2xx in Hok. contradiction.
      * simpl. rewrite Htxt. reflexivity.
    + apply upstreamError_status.
    + apply upstreamError_body.
  - intros e. reflexivity.
  - intros res payload Hst Hjs. apply ok_2xx in Hst.
    unfold respond. rewrite Hst. simpl. exact Hjs.
Qed.

Lemma serial_idle s s' c (p' : Pc Json) :
  (forall c0, pc_of s' c0 = if decide (c = c0) then Some p' else pc_of s c0) ->
  busy p' = false ->
  inFlight (limiter s') = inFlight (limiter s) ->
  serial s -> serial s'.
Proof.
  intros Hpc Hp' Hfl [Huniq Hflag]. split.
  - intros c1 c2 p1 p2. rewrite !Hpc.
    destruct (decide (c = c1)), (decide (c = c2)); intros; simplify_eq;
      try congruence.
    eapply Huniq; eassumption.
  - intros c0 p. rewrite Hpc, Hfl.
    destruct (decide (c = c0)); intros; simplify_eq.
    + destruct p; simpl in *; congruence.
    + eapply Hflag; eassumption.
Qed.

Lemma serial_taken s s' c (p' : Pc Json) :
  (forall c0, pc_of s' c0 = if decide (c = c0) then Some p' else pc_of s c0) ->
  inFlight (limiter s') = true ->
  (forall c0 p0, c0 <> c -> pc_of s c0 = Some p0 -> busy p0 = false) ->
  serial s'.
Proof.
  intros Hpc Hfl Hothers. split.
  - intros c1 c2 p1 p2. rewrite !Hpc.
    destruct (decide (c = c1)), (decide (c = c2)); intros; simplify_eq;
      try reflexivity.
    + assert (busy p2 = false) by (eapply Hothers; [|eassumption]; congruence).
      congruence.
    + assert (busy p1 = false) by (eapply Hothers; [|eassumption]; congruence).
      congruence.
    + assert (busy p1 = false) by (eapply Hothers; [|eassumption]; congruence).
      congruence.
  - intros. exact Hfl.
Qed.

Lemma holding_busy (p : Pc Json) : holding p = true -> busy p = true.
Proof. destruct p; simpl; congruence. Qed.

Lemma sole_busy s c (p : Pc Json) :
  serial s -> pc_of s c = Some p -> busy p = true ->
  forall c0 p0, c0 <> c -> pc_of s c0 = Some p0 -> busy p0 = false.
Proof.
  intros [Huniq _] Hc Hp c0 p0 Hne Hc0.
  destruct (busy p0) eqn:Hb; [|reflexivity].
  exfalso. apply Hne. eapply Huniq; eassumption.
Qed.

Lemma pc_of_settled s c i (r : Settled Json) l t c0 :
  queue_ok s -> calls s !! c = Some i -> pc i = AwaitFetch ->
  pc_of (mkSystem (fst (releaseSlot (limiter s)))
           (wake (snd (releaseSlot (limiter s)))
              (<[c := at_pc (Returned r) i]> (calls s))) l t) c0
  = if decide (c = c0) then Some (Returned r)
    else if decide (head (queue (limiter s)) = Some c0)
         then Some QueueResolved
         else pc_of s c0.
Proof.
  intros [_ Hq] Hc Hpc.
  destruct (releaseSlot_spec (limiter s)) as (_ & _ & _ & _ & _ & Hrn).
  unfold pc_of. simpl. rewrite Hrn, lookup_wake.
  assert (Hhead : forall w, head (queue (limiter s)) = Some w ->
            pc_of s w = Some AwaitQueue).
  { intros w Hw. apply Hq. destruct (queue (limiter s)); [discriminate|].
    simpl in Hw. left. congruence. }
  destruct (decide (c = c0)) as [<-|Hne].
  - rewrite decide_False.
    + rewrite lookup_insert_eq. reflexivity.
    + intros Hw. apply Hhead in Hw. rewrite pc_of_calls, Hc in Hw.
      simpl in Hw. congruence.
  - rewrite lookup_insert_ne by exact Hne.
    destruct (decide (head (queue (limiter s)) = Some c0)) as [Hw|Hw];
      [|reflexivity].
    apply Hhead in Hw. rewrite pc_of_calls in Hw.
    destruct (calls s !! c0); [reflexivity | discriminate].
Qed.

Lemma none_due s c :
  resumption_due s = false -> pc_of s c <> Some QueueResolved.
Proof.
  intros Hdue Hc. rewrite pc_of_calls in Hc.
  destruct (calls s !! c) as [i|] eqn:Hi; [|discriminate].
  simpl in Hc. injection Hc as Hc.
  assert (Hex : resumption_due s = true); [|congruence].
  apply existsb_exists. exists (c, i). split.
  - apply list_elem_of_In, elem_of_map_to_list. exact Hi.
  - unfold is_resolved. simpl. rewrite Hc. reflexivity.
Qed.

Lemma exec_serial j s s' :
  queue_ok s -> serial s -> prompt j s = true -> step j s = Some s' ->
  serial s'.
Proof.
  intros Hok Hser Hprompt Hexec. pose proof Hser as [Huniq Hflag].
  assert (Hnone : match j with
                  | Call _ _ _ _ =>
                      forall c, pc_of s c <> Some QueueResolved
                  | _ => True
                  end).
  { destruct j; try exact I. intros c0. apply none_due.
    simpl in Hprompt. apply negb_true_iff in Hprompt. exact Hprompt. }
  clear Hprompt.
  unfold exec, take, granted in Hexec.
  repeat case_match; simplify_eq; simpl in *.
  all: try match goal with
       | H : snd (acquireSlot_enter ?c ?t ?g) = _ |- _ =>
           destruct (enter_spec c t g) as (Hfl & _ & Hent);
           rewrite H in Hent; destruct Hent as [Hent _]
       end.
  - eapply (serial_idle s _ c); [intros c0; apply pc_of_insert | | | exact Hser];
      [reflexivity | exact Hfl].
  - eapply (serial_idle s _ c); [intros c0; apply pc_of_insert | | | exact Hser];
      [reflexivity | exact Hfl].
  - eapply (serial_taken s _ c); [intros c0; apply pc_of_insert | reflexivity |].
    intros c0 p0 Hne Hc0. destruct p0; simpl; try reflexivity; exfalso.
    + exact (Hnone c0 Hc0).
    + rewrite (Hflag c0 _ Hc0) in Hent by reflexivity. discriminate.
    + rewrite (Hflag c0 _ Hc0) in Hent by reflexivity. discriminate.
  - eapply (serial_taken s _ c); [intros c0; apply pc_of_insert | reflexivity |].
    intros c0 p0 Hne Hc0. destruct p0; simpl; try reflexivity; exfalso.
    + exact (Hnone c0 Hc0).
    + rewrite (Hflag c0 _ Hc0) in Hent by reflexivity. discriminate.
    + rewrite (Hflag c0 _ Hc0) in Hent by reflexivity. discriminate.
  - eapply (serial_taken s _ c); [intros c0; apply pc_of_insert | reflexivity |].
    eapply (sole_busy s c QueueResolved); [exact Hser | | reflexivity].
    rewrite pc_of_calls. rewrite H0. simpl. congruence.
  - eapply (serial_taken s _ c); [intros c0; apply pc_of_insert | reflexivity |].
    eapply (sole_busy s c QueueResolved); [exact Hser | | reflexivity].
    rewrite pc_of_calls. rewrite H0. simpl. congruence.
  - assert (Hc : pc_of s c = Some (AwaitTimer deadline))
      by (rewrite pc_of_calls, H0; simpl; congruence).
    eapply (serial_taken s _ c); [intros c0; apply pc_of_insert | |].
    + simpl. eapply Hflag; [exact Hc | reflexivity].
    + eapply (sole_busy s c); [exact Hser | exact Hc | reflexivity].
  - assert (Hc : pc_of s c = Some AwaitFetch)
      by (rewrite pc_of_calls, H0; simpl; congruence).
    pose proof (sole_busy s c AwaitFetch Hser Hc eq_refl) as Hsole.
    assert (Hbusy : forall c0 p0,
              pc_of (mkSystem (fst (releaseSlot (limiter s)))
                       (wake (snd (releaseSlot (limiter s)))
                          (<[c := at_pc (Returned (respond o)) i]> (calls s)))
                       (EvRelease c (snd (releaseSlot (limiter s))) :: log s)
                       (time s)) c0 = Some p0 ->
              busy p0 = true ->
              head (queue (limiter s)) = Some c0 /\ p0 = QueueResolved).
    { intros c0 p0. rewrite (pc_of_settled s c i) by assumption.
      destruct (decide (c = c0)) as [<-|Hne].
      - intros [= <-]. discriminate.
      - destruct (decide (head (queue (limiter s)) = Some c0)) as [Hw|Hw].
        + intros [= <-] _. auto.
        + intros Hp0 Hb. rewrite (Hsole c0 p0) in Hb by congruence.
          discriminate. }
    split.
    + intros c1 c2 p1 p2 H1' H2' Hb1 Hb2.
      destruct (Hbusy c1 p1 H1' Hb1) as [Hw1 _].
      destruct (Hbusy c2 p2 H2' Hb2) as [Hw2 _]. congruence.
    + intros c0 p0 Hp0 Hh.
      destruct (Hbusy c0 p0 Hp0 (holding_busy p0 Hh)) as [_ ->].
      discriminate.
Qed.

Lemma boot_serial loaded t0 : serial (boot (Json := Json) loaded t0).
Proof.
  split; intros *; unfold pc_of; simpl; rewrite lookup_empty; discriminate.
Qed.

Lemma serial_exclusive s : serial s -> exclusive s.
Proof.
  intros [Huniq _] c1 c2 (p1 & H1 & Hh1) (p2 & H2 & Hh2).
  eapply Huniq; eauto using holding_busy.
Qed.

(** X1. One request at a time, when the host is prompt: in a run where no
    call is made while the continuation of a resolved waiter is due, at most
    one invocation is between taking the slot and releasing it, and the
    flag is set whenever one is. *)
Theorem X1_exclusive_when_prompt loaded t0 js s :
  steps js (boot loaded t0) = Some s ->
  prompt_run parseQuery API_KEY js (boot loaded t0) = true ->
  exclusive s /\
  (forall c, holds s c -> inFlight (limiter s) = true).
Proof.
  intros Hrun Hprompt.
  assert (Hinv : consistent s /\ serial s).
  { revert Hrun Hprompt.
    assert (Hstart : consistent (boot (Json := Json) loaded t0)
                     /\ serial (boot (Json := Json) loaded t0))
      by (split; [apply boot_consistent | apply boot_serial]).
    revert Hstart. generalize (boot (Json := Json) loaded t0) as s0.
    induction js as [|j js IH]; intros s0 [Hc0 Hs0] Hrun Hprompt.
    - simpl in Hrun. injection Hrun as <-. auto.
    - simpl in Hrun, Hprompt.
      apply andb_true_iff in Hprompt as [Hj Hrest].
      destruct (exec parseQuery API_KEY j s0) as [s1|] eqn:Hexec;
        [|discriminate].
      apply (IH s1); [|exact Hrun|exact Hrest]. split.
      + eapply exec_consistent; eassumption.
      + eapply exec_serial; [apply Hc0 | exact Hs0 | exact Hj | exact Hexec]. }
  destruct Hinv as [_ Hser]. split.
  - apply serial_exclusive. exact Hser.
  - intros c (p & Hp & Hh). destruct Hser as [_ Hflag].
    eapply Hflag; eassumption.
Qed.


Lemma exec_wake_order j s s' :
  step j s = Some s' ->
  enqueued (log s) = woken (log s) ++ queue (limiter s) ->
  enqueued (log s') = woken (log s') ++ queue (limiter s').
Proof.
  intros Hexec Hinv.
  unfold exec, take, granted in Hexec.
  repeat case_match; simplify_eq; simpl in *.
  all: try match goal with
       | H : snd (acquireSlot_enter ?c ?t ?g) = _ |- _ =>
           destruct (enter_spec c t g) as (_ & _ & Hent);
           rewrite H in Hent; destruct Hent as [_ Hent]; rewrite Hent
       end.
  all: try exact Hinv.
  - rewrite Hinv, app_assoc. reflexivity.
  - destruct (releaseSlot_spec (limiter s)) as (_ & _ & _ & _ & Hq & Hn).
    rewrite Hq, Hn, Hinv.
    destruct (queue (limiter s)) as [|w rest]; simpl; [reflexivity|].
    rewrite <- app_assoc. reflexivity.
Qed.

(** X3. Waiters are resolved in the order they entered the queue: in any
    state the event loop can reach, the callers that were enqueued are, in
    that order, those [releaseSlot] has resolved followed by those still in
    [queue]; and each release resolves the head of [queue]. *)
Theorem X3_waiters_resolved_in_order loaded t0 js s :
  steps js (boot loaded t0) = Some s ->
  enqueued (log s) = woken (log s) ++ queue (limiter s) /\
  snd (releaseSlot (limiter s)) = head (queue (limiter s)).
Proof.
  intros Hrun. split; [|apply releaseSlot_spec].
  revert Hrun.
  apply (run_invariant
           (fun s => enqueued (log s) = woken (log s) ++ queue (limiter s))).
  - intros j s0 s1 Hinv Hexec. eapply exec_wake_order; eassumption.
  - reflexivity.
Qed.

Lemma spaced_two l c1 t1 c2 t2 :
  spaced (l ++ [(c1, t1)]) -> t1 + 500 <= t2 ->
  spaced (l ++ [(c1, t1); (c2, t2)]).
Proof.
  induction l as [|[c0 t0] l IH]; intros Hl Ht; simpl in *.
  - auto.
  - destruct l as [|[c' t'] l]; simpl in *.
    + destruct Hl as [H0 _]. auto.
    + destruct Hl as [H0 Hl]. split; [exact H0|]. apply IH; assumption.
Qed.

Lemma spaced_back_rev a : spaced_back a -> spaced (rev a).
Proof.
  induction a as [|[c2 t2] a IH]; intros Ha; simpl in *; [exact I|].
  destruct a as [|[c1 t1] a]; simpl in *; [exact I|].
  destruct Ha as [Ht Ha]. rewrite <- app_assoc. simpl.
  apply spaced_two; [apply IH; exact Ha | exact Ht].
Qed.

Lemma admissions_app l1 l2 :
  admissions (l1 ++ l2) = admissions l1 ++ admissions l2.
Proof.
  induction l1 as [|e l1 IH]; simpl; [reflexivity|].
  destruct e; simpl; rewrite ?IH; reflexivity.
Qed.

Lemma admissions_rev l : admissions (rev l) = rev (admissions l).
Proof.
  induction l as [|e l IH]; simpl; [reflexivity|].
  rewrite admissions_app, IH. destruct e; simpl; rewrite ?app_nil_r;
    reflexivity.
Qed.

Lemma exec_paced j s s' :
  queue_ok s -> serial s -> paced s -> step j s = Some s' -> paced s'.
Proof.
  intros Hok Hser (Hsp & Hlast & Htimers) Hexec.
  pose proof Hser as [Huniq Hflag].
  unfold exec, take, granted in Hexec.
  repeat case_match; simplify_eq; simpl in *.
  all: try match goal with
       | H : snd (acquireSlot_enter ?c ?t ?g) = _ |- _ =>
           destruct (enter_spec c t g) as (Hfl & Hlt & Hent);
           rewrite H in Hent; destruct Hent as [Hent _]
       end.
  all: unfold paced; simpl; rewrite ?Hlt.
  all: try match goal with
       | H : calls _ !! ?c = Some ?i, Hp : pc ?i = ?p |- _ =>
           assert (Hc : pc_of s c = Some p)
             by (rewrite pc_of_calls, H; simpl; congruence)
       end.
  all: try match goal with
       | H : (0 <? _) = true |- _ => apply Z.ltb_lt in H
       | H : (0 <? _) = false |- _ => apply Z.ltb_ge in H
       end.
  all: try match goal with
       | H : (_ && _) = true |- _ =>
           apply andb_true_iff in H; destruct H as [_ Hdl];
           apply Z.leb_le in Hdl
       end.
  (* the log gains no admission *)
  1-3, 5: (split; [exact Hsp|]; split; [exact Hlast|];
           intros c0 d; rewrite pc_of_insert;
           destruct (decide (c = c0)) as [<-|Hne];
           [intros [= <-]; lia | apply Htimers]).
  (* an admission at [now] *)
  1-3: split; [|split].
  1, 4, 7: destruct (admissions (log s)) as [|[c1 t1] a] eqn:Ha;
           [exact I|]; split; [|exact Hsp];
           rewrite (Hlast c1 t1 eq_refl).
  all: try (intros c0 t [= <- <-]; reflexivity).
  - lia.
  - lia.
  - pose proof (Htimers c deadline Hc). lia.
  - intros c0 d. rewrite pc_of_insert.
    destruct (decide (c = c0)) as [<-|Hne]; [discriminate|].
    intros Hc0. rewrite (Hflag c0 _ Hc0 eq_refl) in Hent. discriminate.
  - intros c0 d. rewrite pc_of_insert.
    destruct (decide (c = c0)) as [<-|Hne]; [discriminate|].
    intros Hc0. exfalso. apply Hne. symmetry.
    eapply Huniq; [exact Hc0 | exact Hc | reflexivity | reflexivity].
  - intros c0 d. rewrite pc_of_insert.
    destruct (decide (c = c0)) as [<-|Hne]; [discriminate|].
    intros Hc0. exfalso. apply Hne. symmetry.
    eapply Huniq; [exact Hc0 | exact Hc | reflexivity | reflexivity].
  - destruct (releaseSlot_spec (limiter s)) as (_ & _ & _ & Hrl & _).
    rewrite Hrl. split; [exact Hsp|]. split; [exact Hlast|].
    intros c0 d. rewrite (pc_of_settled s c i) by assumption.
    destruct (decide (c = c0)); [discriminate|].
    destruct (decide (head (queue (limiter s)) = Some c0)); [discriminate|].
    apply Htimers.
Qed.

Lemma boot_paced loaded t0 : paced (boot (Json := Json) loaded t0).
Proof.
  split; [exact I|]. split; [discriminate|].
  intros c d. unfold pc_of. simpl. rewrite lookup_empty. discriminate.
Qed.

(** X2. Two requests per second, when the host is prompt: in a run where no
    call is made while the continuation of a resolved waiter is due, any two
    consecutive admissions are at least 500 ms apart. *)
Theorem X2_spaced_when_prompt loaded t0 js s :
  steps js (boot loaded t0) = Some s ->
  prompt_run parseQuery API_KEY js (boot loaded t0) = true ->
  spaced (admissions (history s)).
Proof.
  intros Hrun Hprompt.
  assert (Hinv : (consistent s /\ serial s) /\ paced s).
  { revert Hrun Hprompt.
    assert (Hstart : (consistent (boot (Json := Json) loaded t0)
                      /\ serial (boot (Json := Json) loaded t0))
                     /\ paced (boot (Json := Json) loaded t0)).
    { split; [split|];
        [apply boot_consistent | apply boot_serial | apply boot_paced]. }
    revert Hstart. generalize (boot (Json := Json) loaded t0) as s0.
    induction js as [|j js IH]; intros s0 [[Hc0 Hs0] Hp0] Hrun Hprompt.
    - simpl in Hrun. injection Hrun as <-. auto.
    - simpl in Hrun, Hprompt.
      apply andb_true_iff in Hprompt as [Hj Hrest].
      destruct (exec parseQuery API_KEY j s0) as [s1|] eqn:Hexec;
        [|discriminate].
      apply (IH s1); [|exact Hrun|exact Hrest]. split; [split|].
      + eapply exec_consistent; eassumption.
      + eapply exec_serial; [apply Hc0 | exact Hs0 | exact Hj | exact Hexec].
      + eapply exec_paced; [apply Hc0 | exact Hs0 | exact Hp0 | exact Hexec]. }
  destruct Hinv as [_ (Hsp & _)].
  unfold history. rewrite admissions_rev. apply spaced_back_rev. exact Hsp.
Qed.

Lemma enter_count c today (g : Limiter) :
  dailyCount (fst (acquireSlot_enter c today g))
  = if negb (String.eqb today (dailyResetDate g)) then 0 else dailyCount g.
Proof.
  unfold acquireSlot_enter, resetDailyIfNeeded.
  destruct (String.eqb today (dailyResetDate g)); simpl;
    repeat (case_match; simpl); reflexivity.
Qed.

Lemma exec_counts j s s' :
  step j s = Some s' ->
  dailyCount (limiter s) = Z.of_nat (since_rollover (log s)) ->
  dailyCount (limiter s') = Z.of_nat (since_rollover (log s')).
Proof.
  intros Hexec Hinv.
  unfold exec, take, granted in Hexec.
  repeat case_match; simplify_eq; simpl in *.
  all: rewrite ?enter_count.
  all: try (destruct (releaseSlot_spec (limiter s)) as (_ & Hrc & _);
            rewrite Hrc).
  all: try destruct (negb (String.eqb _ _)); simpl; lia.
Qed.

(** X4. The counter counts the admissions of the epoch: in any state the
    event loop can reach, [dailyCount] is the number of admissions since the
    last call that restarted it (since module load, when none did). *)
Theorem X4_counter_counts_admissions loaded t0 js s :
  steps js (boot loaded t0) = Some s ->
  dailyCount (limiter s) = Z.of_nat (since_rollover (log s)).
Proof.
  apply (run_invariant
           (fun s => dailyCount (limiter s)
                     = Z.of_nat (since_rollover (log s)))).
  - intros j s0 s1 Hinv Hexec. eapply exec_counts; eassumption.
  - reflexivity.
Qed.

End RunFacts.

(** ** The scenarios, run *)

(** What a schedule leaves of the limiter, when every job of it can run. *)
Lemma in_turn_5000 :
  (s ← demo (in_turn 5000 1);
   Some (limiter s, calls s !! 5001%positive, time s))
  = Some (mkLimiter 5000 day1 5000000 false [], None, 5000000).
Proof. vm_compute. reflexivity. Qed.

Lemma C4_witness :
  exists s,
    demo (in_turn 5000 1) = Some s /\
    calls s !! 5001%positive = None /\
    time s <= 5001000 /\
    5000 <= dailyCount (resetDailyIfNeeded day1 (limiter s)) /\
    exec noQuery "key"
      (Call 5001 "/caseBrowse/en/" [] (mkClock 5001000 day1)) s
    = Some (mkSystem (limiter s)
              (<[5001%positive :=
                   mkInvocation "/caseBrowse/en/" []
                     (Returned (Rejected quotaError))]> (calls s))
              (EvCall 5001 false :: log s) 5001000).
Proof.
  pose proof in_turn_5000 as F.
  destruct (demo (in_turn 5000 1)) as [s|]; [|discriminate].
  simpl in F. injection F as Hg Hc Ht.
  assert (Hfresh : calls s !! 5001%positive = None) by exact Hc.
  assert (Htime : time s <= now (mkClock 5001000 day1))
    by (rewrite Ht; simpl; lia).
  assert (Hcap : 5000 <= dailyCount
            (resetDailyIfNeeded (today (mkClock 5001000 day1)) (limiter s)))
    by (rewrite Hg; vm_compute; discriminate).
  exists s. split; [reflexivity|]. split; [exact Hfresh|].
  split; [exact Htime|]. split; [exact Hcap|].
  exact (proj2 (C4_quota_exceeded_is_atomic noQuery "key" s 5001
                  "/caseBrowse/en/" [] (mkClock 5001000 day1)
                  Hfresh Htime Hcap)).
Defined.


Lemma C5_witness :
  exists s s',
    demo one_call = Some s /\
    pc_of s 1 = Some AwaitFetch /\
    exec noQuery "key" (FetchSettled 1 not_found) s = Some s' /\
    pc_of s' 1 = Some (Returned (respond not_found)) /\
    log s' = EvRelease 1 (head (queue (limiter s))) :: log s /\
    inFlight (limiter s') = false.
Proof.
  destruct (demo one_call) as [s|] eqn:E; [|vm_compute in E; discriminate].
  assert (Hpc : pc_of s 1 = Some AwaitFetch).
  { pose proof E as E'. vm_compute in E'. injection E' as <-. reflexivity. }
  destruct (C5_slot_released_exactly_once noQuery "key" day1 0 one_call s E)
    as (Hexit & _).
  destruct (Hexit 1%positive Hpc not_found) as (s' & H1 & H2 & H3 & H4).
  exists s, s'. auto 10.
Defined.

Lemma C8_witness :
  exists s s',
    demo one_call = Some s /\
    pc_of s 1 = Some AwaitFetch /\
    exec noQuery "key" (FetchSettled 1 not_found) s = Some s' /\
    pc_of s' 1
      = Some (Returned (Rejected (mkError "CanLII API 404: not found"))).
Proof.
  destruct (demo one_call) as [s|] eqn:E; [|vm_compute in E; discriminate].
  assert (Hpc : pc_of s 1 = Some AwaitFetch).
  { pose proof E as E'. vm_compute in E'. injection E' as <-. reflexivity. }
  destruct (C8_upstream_failure_mapping noQuery "key" day1 0 one_call s 1 E
              Hpc) as (Hexit & _).
  destruct (Hexit not_found) as (s' & H1 & H2).
  exists s, s'. auto.
Defined.

(** C3. The schedule [overrun] can run, all of it on one day: callers 5000
    and 5001 pass the quota test while the counter reads 4999, wait in the
    queue, and are admitted in turn, each resumed right after the release
    that resolved it, without the test being made again.  The counter ends
    at 5001, one for each admission of the day. *)
Theorem C3_counter_exceeds_5000 :
  exists s,
    demo overrun = Some s /\
    dailyResetDate (limiter s) = day1 /\
    Z.of_nat (length (admissions (log s))) = 5001 /\
    dailyCount (limiter s) = 5001.
Proof.
  assert (F : (s ← demo overrun;
               Some (dailyResetDate (limiter s),
                     Z.of_nat (length (admissions (log s))),
                     dailyCount (limiter s)))
              = Some (day1, 5001, 5001))
    by (vm_compute; reflexivity).
  destruct (demo overrun) as [s|]; [|discriminate].
  simpl in F. injection F as Hd Ha Hc.
  exists s. split; [reflexivity|].
  split; [exact Hd|]. split; [exact Ha | exact Hc].
Qed.

(** The schedules [overtaking] and [barging] make a call while a resolved
    waiter is due. *)
Lemma overtaking_not_prompt :
  prompt_run noQuery "key" overtaking (boot day1 0) = false /\
  prompt_run noQuery "key" barging (boot day1 0) = false.
Proof. split; vm_compute; reflexivity. Qed.

Lemma X1_witness :
  exists s,
    demo in_order = Some s /\
    prompt_run noQuery "key" in_order (boot day1 0) = true /\
    pc_of s 3 = Some AwaitFetch /\
    exclusive s /\
    (forall c, holds s c -> inFlight (limiter s) = true).
Proof.
  destruct (demo in_order) as [s|] eqn:E; [|vm_compute in E; discriminate].
  assert (Hprompt : prompt_run noQuery "key" in_order (boot day1 0) = true)
    by (vm_compute; reflexivity).
  assert (Hpc : pc_of s 3 = Some AwaitFetch).
  { pose proof E as E'. vm_compute in E'. injection E' as <-. reflexivity. }
  exists s. split; [reflexivity|]. split; [exact Hprompt|].
  split; [exact Hpc|].
  exact (X1_exclusive_when_prompt noQuery "key" day1 0 in_order s E Hprompt).
Defined.

Lemma X2_witness :
  exists s,
    demo in_order = Some s /\
    prompt_run noQuery "key" in_order (boot day1 0) = true /\
    admissions (history s)
      = [(1%positive, 1000); (2%positive, 1500); (3%positive, 2000)] /\
    spaced (admissions (history s)).
Proof.
  destruct (demo in_order) as [s|] eqn:E; [|vm_compute in E; discriminate].
  assert (Hprompt : prompt_run noQuery "key" in_order (boot day1 0) = true)
    by (vm_compute; reflexivity).
  assert (Hadm : admissions (history s)
            = [(1%positive, 1000); (2%positive, 1500); (3%positive, 2000)]).
  { pose proof E as E'. vm_compute in E'. injection E' as <-. reflexivity. }
  exists s. split; [reflexivity|]. split; [exact Hprompt|].
  split; [exact Hadm|].
  exact (X2_spaced_when_prompt noQuery "key" day1 0 in_order s E Hprompt).
Defined.

Lemma X3_witness :
  exists s,
    demo barging = Some s /\
    enqueued (log s) = [2; 3]%positive /\
    enqueued (log s) = woken (log s) ++ queue (limiter s) /\
    snd (releaseSlot (limiter s)) = head (queue (limiter s)).
Proof.
  destruct (demo barging) as [s|] eqn:E; [|vm_compute in E; discriminate].
  assert (Henq : enqueued (log s) = [2; 3]%positive).
  { pose proof E as E'. vm_compute in E'. injection E' as <-. reflexivity. }
  exists s. split; [reflexivity|]. split; [exact Henq|].
  exact (X3_waiters_resolved_in_order noQuery "key" day1 0 barging s E).
Defined.

Lemma X4_witness :
  exists s,
    demo next_day = Some s /\
    since_rollover (log s) = 1%nat /\
    length (admissions (log s)) = 4%nat /\
    dailyCount (limiter s) = Z.of_nat (since_rollover (log s)).
Proof.
  destruct (demo next_day) as [s|] eqn:E; [|vm_compute in E; discriminate].
  assert (Hlog : since_rollover (log s) = 1%nat
                 /\ length (admissions (log s)) = 4%nat).
  { pose proof E as E'. vm_compute in E'. injection E' as <-.
    split; reflexivity. }
  exists s. split; [reflexivity|]. split; [apply Hlog|].
  split; [apply Hlog|].
  exact (X4_counter_counts_admissions noQuery "key" day1 0 next_day s E).
Defined.

(** ** The requests of the tools *)

Lemma Number_toString_nonempty (n : N) : Number_toString n <> "".
Proof.
  unfold Number_toString. destruct (N.to_uint n); simpl; discriminate.
Qed.

Lemma input_loop (params : Entries) (u : URL) :
  input (fold_left setEntry params u) = input u.
Proof.
  revert u. induction params as [|[k [v|]] params IH]; intros u; simpl;
    [reflexivity | | apply IH].
  rewrite IH. destruct (negb (String.eqb v "")); reflexivity.
Qed.

Lemma assign_fresh (k : string) (v : option string) (params : Entries) :
  ~ In k (List.map fst params) -> assign k v params = params ++ [(k, v)].
Proof.
  induction params as [|[k' v'] params IH]; intros Hk; simpl; [reflexivity|].
  destruct (String.eqb k k') eqn:E.
  - apply String.eqb_eq in E. exfalso. apply Hk. left. simpl. congruence.
  - rewrite IH; [reflexivity|]. intros Hin. apply Hk. right. exact Hin.
Qed.

(** The entries list_cases passes: the two numbers, and each filter that
    was given and is not empty. *)
Lemma list_cases_entries language databaseId offset resultCount pb pa db da
    k v :
  In (k, v) (toolParams (ListCases language databaseId offset resultCount
                           pb pa db da)) <->
  (k = "offset" /\ v = Some (Number_toString offset)) \/
  (k = "resultCount" /\ v = Some (Number_toString resultCount)) \/
  (k = "publishedBefore" /\ v = pb /\ truthy pb = true) \/
  (k = "publishedAfter" /\ v = pa /\ truthy pa = true) \/
  (k = "decisionDateBefore" /\ v = db /\ truthy db = true) \/
  (k = "decisionDateAfter" /\ v = da /\ truthy da = true).
Proof.
  unfold toolParams, assignIf.
  destruct (truthy pb) eqn:Hpb, (truthy pa) eqn:Hpa,
    (truthy db) eqn:Hdb, (truthy da) eqn:Hda; simpl;
    split; intros H;
    repeat match goal with
           | H : _ \/ _ |- _ => destruct H as [H|H]
           | H : (_, _) = (_, _) |- _ => injection H as <- <-
           | H : _ /\ _ |- _ => destruct H
           | H : False |- _ => destruct H
           end;
    subst; try discriminate; auto 12.
Qed.

Lemma tool_keys_distinct (t : ToolCall) :
  List.NoDup (List.map fst (toolParams t)).
Proof.
  destruct t; simpl; try constructor.
  unfold assignIf.
  destruct (truthy publishedBefore), (truthy publishedAfter),
    (truthy decisionDateBefore), (truthy decisionDateAfter); simpl;
    repeat constructor; simpl; intuition discriminate.
Qed.

Lemma tool_values_sent (t : ToolCall) k v :
  In (k, v) (toolParams t) ->
  k <> "api_key" /\ exists s, v = Some s /\ s <> "".
Proof.
  assert (Htruthy : forall o : option string, truthy o = true ->
            exists s, o = Some s /\ s <> "").
  { intros [s|] Ho; simpl in Ho; [|discriminate].
    exists s. split; [reflexivity|]. intros ->. discriminate. }
  destruct t; try (simpl; tauto).
  intros H. apply list_cases_entries in H.
  destruct H as [[-> ->]|[[-> ->]|[[-> [-> H]]|[[-> [-> H]]|[[-> [-> H]]|
                 [-> [-> H]]]]]]];
    (split; [discriminate|]); try (apply Htruthy; exact H);
    (eexists; split; [reflexivity | apply Number_toString_nonempty]).
Qed.

Section ToolFacts.

Variable parseQuery : string -> SearchParams.
Variable apiKey : string.

Lemma tool_url_entries (t : ToolCall) :
  (forall k v, In (k, v) (toolParams t) ->
     exists s, v = Some s /\ s <> "" /\
               sent_as k (toolUrl parseQuery apiKey t) = [s]) /\
  (forall k, k <> "api_key" -> ~ In k (List.map fst (toolParams t)) ->
     sent_as k (toolUrl parseQuery apiKey t)
     = URLSearchParams_getAll k (parseQuery (BASE_URL +:+ toolPath t))).
Proof.
  unfold toolUrl, buildUrl. split.
  - intros k v Hin. pose proof Hin as Hv.
    apply tool_values_sent in Hv as [_ (s & -> & Hs)].
    exists s. split; [reflexivity|]. split; [exact Hs|].
    apply loop_sets; [apply tool_keys_distinct | exact Hin | exact Hs].
  - intros k Hk Hout. rewrite loop_other.
    + unfold sent_as. simpl. apply getAll_set_other. exact Hk.
    + intros v Hin. exfalso. apply Hout.
      apply (List.in_map fst) in Hin. exact Hin.
Qed.

(** X5. What each tool requests.  For every call of the seven tools within
    its input schema, the URL is parsed from the base followed by the path
    of the tool, it carries the configured key as its only api_key, whatever
    query the arguments smuggle into the path, it carries every entry of the
    parameter mapping of the handler, once and with its value, and it
    carries for any other name what the path itself holds. *)
Theorem X5_tool_request (t : ToolCall) :
  schema_ok t ->
  input (toolUrl parseQuery apiKey t) = BASE_URL +:+ toolPath t /\
  sent_as "api_key" (toolUrl parseQuery apiKey t) = [apiKey] /\
  (forall k v, In (k, v) (toolParams t) ->
     exists s, v = Some s /\ s <> "" /\
               sent_as k (toolUrl parseQuery apiKey t) = [s]) /\
  (forall k, k <> "api_key" -> ~ In k (List.map fst (toolParams t)) ->
     sent_as k (toolUrl parseQuery apiKey t)
     = URLSearchParams_getAll k (parseQuery (BASE_URL +:+ toolPath t))).
Proof.
  intros _. destruct (tool_url_entries t) as [Hset Hother].
  split; [|split; [|split; assumption]].
  - unfold toolUrl, buildUrl. rewrite input_loop. reflexivity.
  - unfold toolUrl, buildUrl. rewrite loop_other.
    + unfold sent_as. simpl. apply getAll_set_same.
    + intros v Hin. apply tool_values_sent in Hin as [Hk _]. congruence.
Qed.

(** X6. The filters of list_cases.  Within the input schema, the URL of a
    list_cases call carries offset and resultCount in decimal, and each of
    the four date filters with its value when it was given and is not empty;
    a filter that was left out or is empty is not added to the URL. *)
Theorem X6_list_cases_filters language databaseId offset resultCount
    pb pa db da :
  let t := ListCases language databaseId offset resultCount pb pa db da in
  schema_ok t ->
  sent_as "offset" (toolUrl parseQuery apiKey t)
    = [Number_toString offset] /\
  sent_as "resultCount" (toolUrl parseQuery apiKey t)
    = [Number_toString resultCount] /\
  (forall k v,
     (k, v) = ("publishedBefore", pb) \/ (k, v) = ("publishedAfter", pa) \/
     (k, v) = ("decisionDateBefore", db) \/
     (k, v) = ("decisionDateAfter", da) ->
     match v with
     | Some s =>
         if String.eqb s ""
         then sent_as k (toolUrl parseQuery apiKey t)
              = URLSearchParams_getAll k (parseQuery (BASE_URL +:+ toolPath t))
         else sent_as k (toolUrl parseQuery apiKey t) = [s]
     | None =>
         sent_as k (toolUrl parseQuery apiKey t)
         = URLSearchParams_getAll k (parseQuery (BASE_URL +:+ toolPath t))
     end).
Proof.
  intros t Hok.
  destruct (tool_url_entries t) as (Hset & Hother).
  split; [|split].
  - destruct (Hset "offset" (Some (Number_toString offset)))
      as (s & [= <-] & _ & H); [|exact H].
    apply list_cases_entries. auto.
  - destruct (Hset "resultCount" (Some (Number_toString resultCount)))
      as (s & [= <-] & _ & H); [|exact H].
    apply list_cases_entries. auto.
  - intros k v Hkv.
    assert (Hin : truthy v = true -> In (k, v) (toolParams t)).
    { intros Hv. apply list_cases_entries.
      destruct Hkv as [[= -> ->]|[[= -> ->]|[[= -> ->]|[= -> ->]]]];
        auto 12. }
    assert (Hout : truthy v = false -> ~ In k (List.map fst (toolParams t))).
    { intros Hv Hk. apply List.in_map_iff in Hk as ([k' v'] & Hk' & Hin').
      simpl in Hk'. subst k'. apply list_cases_entries in Hin'.
      destruct Hkv as [[= -> ->]|[[= -> ->]|[[= -> ->]|[= -> ->]]]];
        destruct Hin' as [[? ?]|[[? ?]|[[? [? ?]]|[[? [? ?]]|[[? [? ?]]|
                          [? [? ?]]]]]]];
        subst; try discriminate; congruence. }
    assert (Hk : k <> "api_key").
    { destruct Hkv as [[= -> ->]|[[= -> ->]|[[= -> ->]|[= -> ->]]]];
        discriminate. }
    destruct v as [s|]; simpl in *.
    + destruct (String.eqb s ""); simpl in *.
      * apply Hother; auto.
      * destruct (Hset k (Some s) (Hin eq_refl)) as (s' & [= <-] & _ & H).
        exact H.
    + apply Hother; auto.
Qed.

End ToolFacts.

(** ** Start-up *)

Lemma includes_In (x : string) (l : list string) :
  includes x l = true <-> In x l.
Proof.
  unfold includes. rewrite existsb_exists. split.
  - intros (y & Hy & E). apply String.eqb_eq in E. congruence.
  - intros H. exists x. split; [exact H | apply String.eqb_refl].
Qed.

Lemma indexOf_first (x : string) (pre rest : list string) :
  ~ In x pre -> indexOf x (pre ++ x :: rest) = Some (length pre).
Proof.
  induction pre as [|y pre IH]; intros Hx; simpl.
  - rewrite String.eqb_refl. reflexivity.
  - destruct (String.eqb x y) eqn:E.
    + apply String.eqb_eq in E. exfalso. apply Hx. left. congruence.
    + rewrite IH; [reflexivity|]. intros Hin. apply Hx. right. exact Hin.
Qed.

(** X7. The transport argument.  Without --transport the server runs on
    stdio.  With it, the transport is the argument that follows its first
    occurrence, later occurrences being ignored; and when nothing follows,
    the server does not fall back to stdio: it exits as for an unknown
    transport. *)
Theorem X7_transport_argument (pre rest : list string) :
  ~ In "--transport" pre ->
  startup pre = ServeStdio /\
  transportArg (pre ++ "--transport" :: rest) = head rest /\
  startup (pre ++ ["--transport"]) = ExitUnknownTransport /\
  startup (pre ++ "--transport" :: "http" :: rest) = ServeHttp /\
  startup (pre ++ "--transport" :: "stdio" :: rest) = ServeStdio.
Proof.
  intros Hpre.
  assert (Harg : forall rest',
            transportArg (pre ++ "--transport" :: rest') = head rest').
  { intros rest'. unfold transportArg.
    assert (Hin : includes "--transport" (pre ++ "--transport" :: rest')
                  = true).
    { apply includes_In, List.in_app_iff. right. left. reflexivity. }
    rewrite Hin, (indexOf_first _ pre rest' Hpre).
    rewrite List.nth_error_app2 by lia.
    replace (length pre + 1 - length pre)%nat with 1%nat by lia.
    destruct rest'; reflexivity. }
  split; [|split; [apply Harg|]].
  - unfold startup, transportArg.
    destruct (includes "--transport" pre) eqn:E; [|reflexivity].
    apply includes_In in E. contradiction.
  - unfold startup. rewrite !Harg. simpl. auto.
Qed.

(** ** The bearer-token gate *)

Lemma append_length (a b : string) :
  String.length (a +:+ b) = (String.length a + String.length b)%nat.
Proof.
  induction a as [|x a IH]; [reflexivity|].
  change (S (String.length (a +:+ b))
          = S (String.length a + String.length b)).
  rewrite IH. reflexivity.
Qed.

(** X8. The bearer-token gate.  With a non-empty token configured, a request
    passes exactly when its authorization header is the word Bearer, one
    space and the token; in particular a request without the header, or
    with the bare token, is refused.  With no token, or an empty one, every
    request passes. *)
Theorem X8_bearer_gate (t : string) :
  t <> "" ->
  (forall h, bearerGate (Some t) h = true <-> h = Some ("Bearer " +:+ t)) /\
  bearerGate (Some t) None = false /\
  bearerGate (Some t) (Some t) = false /\
  (forall h, bearerGate None h = true) /\
  (forall h, bearerGate (Some "") h = true).
Proof.
  intros Ht.
  assert (Hgate : forall h, bearerGate (Some t) h
            = String.eqb (default "" h) ("Bearer " +:+ t)).
  { intros h. unfold bearerGate. simpl.
    apply String.eqb_neq in Ht. rewrite Ht. reflexivity. }
  split; [|split; [|split; [|split]]].
  - intros h. rewrite Hgate. rewrite String.eqb_eq. split.
    + destruct h as [s|]; simpl; [congruence|].
      intros E. apply (f_equal String.length) in E.
      rewrite append_length in E. simpl in E. lia.
    + intros ->. reflexivity.
  - rewrite Hgate. reflexivity.
  - rewrite Hgate. simpl. apply String.eqb_neq. intros E.
    apply (f_equal String.length) in E.
    rewrite append_length in E. simpl in E. lia.
  - reflexivity.
  - reflexivity.
Qed.

(** ** More on the runs of the event loop *)

Section MoreRunFacts.

Variable parseQuery : string -> SearchParams.
Variable API_KEY : string.
Context {Json : Type}.

Implicit Types (s : System Json) (c w : Caller) (j : Job Json).

Local Abbreviation step := (exec parseQuery API_KEY).
Local Abbreviation steps := (run parseQuery API_KEY).

Lemma exec_waiters_served j s s' :
  queue_ok s -> flag_owned s -> waiters_served s -> step j s = Some s' ->
  waiters_served s'.
Proof.
  intros Hok Hflag [Hwait Hbusy] Hexec. pose proof Hok as [Hnd Hq].
  unfold exec, take, granted in Hexec.
  repeat case_match; simplify_eq; simpl in *.
  all: try match goal with
       | H : snd (acquireSlot_enter ?c ?t ?g) = _ |- _ =>
           destruct (enter_spec c t g) as (_ & _ & Hent);
           rewrite H in Hent; destruct Hent as [Hent1 Hent2]
       end.
  all: try match goal with
       | H : calls _ !! ?c = None |- _ =>
           assert (Hc : pc_of s c = None) by (rewrite pc_of_calls, H; reflexivity)
       | H : calls _ !! ?c = Some ?i, Hp : pc ?i = ?p |- _ =>
           assert (Hc : pc_of s c = Some p)
             by (rewrite pc_of_calls, H; simpl; congruence)
       end.
  all: unfold waiters_served; simpl; rewrite ?Hent2.
  (* a call that throws or is enqueued *)
  1-2: split;
       [ intros c0; rewrite pc_of_insert;
         destruct (decide (c = c0)) as [<-|Hne];
         [ try discriminate; intros _; apply List.in_app_iff; right; left;
           reflexivity
         | intros H0'; try (apply List.in_app_iff; left); apply Hwait, H0' ]
       | ].
  1: { intros Hne. destruct (Hbusy Hne) as (c1 & p & Hp & Hb).
       exists c1, p. rewrite pc_of_insert.
       destruct (decide (c = c1)) as [<-|]; [congruence | auto]. }
  1: { intros _. destruct (Hflag Hent1) as (c1 & p & Hp & Hh).
       exists c1, p. rewrite pc_of_insert.
       destruct (decide (c = c1)) as [<-|]; [congruence|].
       split; [exact Hp | apply holding_busy, Hh]. }
  (* the slot is taken, or the timer fires *)
  1-5: split;
       [ intros c0; rewrite pc_of_insert;
         destruct (decide (c = c0)) as [<-|Hne];
         [ discriminate | intros H0'; apply Hwait, H0' ]
       | intros _; exists c; eexists; rewrite pc_of_insert;
         rewrite decide_True by reflexivity; split; reflexivity ].
  (* a release *)
  destruct (releaseSlot_spec (limiter s)) as (_ & _ & _ & _ & Hrq & Hrn).
  rewrite Hrq. split.
  - intros c0. rewrite (pc_of_settled s c i) by assumption.
    destruct (decide (c = c0)); [discriminate|].
    destruct (decide (head (queue (limiter s)) = Some c0)) as [|Hhd];
      [discriminate|].
    intros H0'. apply Hwait in H0'.
    destruct (queue (limiter s)) as [|w rest]; [destruct H0'|].
    simpl in *. destruct H0' as [->|H0']; [congruence | exact H0'].
  - intros Hne. destruct (queue (limiter s)) as [|w rest] eqn:Hqe;
      [contradiction|].
    exists w, QueueResolved. split; [|reflexivity].
    rewrite (pc_of_settled s c i) by assumption. rewrite Hqe. simpl.
    assert (Hcw : c <> w).
    { intros <-. assert (Hin : In c (c :: rest)) by (left; reflexivity).
      apply Hq in Hin. congruence. }
    rewrite decide_False by exact Hcw.
    rewrite decide_True by reflexivity. reflexivity.
Qed.

Lemma busy_can_run s c (p : Pc Json) :
  pc_of s c = Some p -> busy p = true ->
  exists j s',
    step j s = Some s' /\
    (j = Resume c (time s) \/
     (exists deadline, j = TimerFired c (Z.max (time s) deadline)) \/
     j = FetchSettled c (NetworkError (mkError ""))).
Proof.
  intros Hp Hb. rewrite pc_of_calls in Hp.
  destruct (calls s !! c) as [i|] eqn:Hi; [|discriminate].
  simpl in Hp. injection Hp as Hp.
  destruct p; try discriminate.
  - exists (Resume c (time s)). eexists. split; [|auto].
    unfold exec. rewrite Hi, Hp, Z.leb_refl. reflexivity.
  - exists (TimerFired c (Z.max (time s) deadline)). eexists.
    split; [|eauto]. unfold exec. rewrite Hi, Hp.
    assert (H1 : (time s <=? Z.max (time s) deadline) = true)
      by (apply Z.leb_le; lia).
    assert (H2 : (deadline <=? Z.max (time s) deadline) = true)
      by (apply Z.leb_le; lia).
    rewrite H1, H2. reflexivity.
  - exists (FetchSettled c (NetworkError (mkError ""))). eexists.
    split; [|auto]. unfold exec. rewrite Hi, Hp. reflexivity.
Qed.

(** X10. No waiter is left behind.  In any state the event loop can reach,
    the invocations suspended on the queue promise are exactly the entries
    of [queue]; and while [queue] is not empty some invocation holds the
    slot or is due to resume, so that a job other than a new call can run:
    the continuation of a resolved waiter, a spacing timer, or the
    completion of a request, which releases the slot. *)
Theorem X10_no_waiter_left_behind loaded t0 js s :
  steps js (boot loaded t0) = Some s ->
  (forall c, pc_of s c = Some AwaitQueue <-> In c (queue (limiter s))) /\
  (queue (limiter s) <> [] ->
   exists c j s',
     step j s = Some s' /\
     (j = Resume c (time s) \/
      (exists deadline, j = TimerFired c (Z.max (time s) deadline)) \/
      j = FetchSettled c (NetworkError (mkError "")))).
Proof.
  intros Hrun.
  assert (H : consistent s /\ waiters_served s).
  { revert Hrun.
    apply (run_invariant parseQuery API_KEY
             (fun s => consistent s /\ waiters_served s)).
    - intros j s0 s1 [Hc0 Hw0] Hexec. split.
      + eapply exec_consistent; eassumption.
      + eapply exec_waiters_served;
          [apply Hc0 | apply Hc0 | exact Hw0 | exact Hexec].
    - split; [apply boot_consistent|]. split.
      + intros c. unfold pc_of. simpl. rewrite lookup_empty. discriminate.
      + intros Hne. contradiction. }
  destruct H as [([_ Hq] & _ & _) [Hwait Hbusy]]. split.
  - intros c. split; [apply Hwait | apply Hq].
  - intros Hne. destruct (Hbusy Hne) as (c & p & Hp & Hb).
    destruct (busy_can_run s c p Hp Hb) as (j & s' & Hstep & Hj).
    exists c, j, s'. auto.
Qed.

Lemma none_pending s c (p : Pc Json) :
  any_pending s = false -> pc_of s c = Some p -> pending p = false.
Proof.
  intros Hnone Hc. rewrite pc_of_calls in Hc.
  destruct (calls s !! c) as [i|] eqn:Hi; [|discriminate].
  simpl in Hc. injection Hc as Hc.
  destruct (pending p) eqn:Hp; [|reflexivity].
  assert (Hex : any_pending s = true); [|congruence].
  apply existsb_exists. exists (c, i). split.
  - apply list_elem_of_In, elem_of_map_to_list. exact Hi.
  - simpl. rewrite Hc. exact Hp.
Qed.

Lemma enter_below c today (g : Limiter) :
  (forall e, snd (acquireSlot_enter c today g) <> Throws e) ->
  dailyCount (fst (acquireSlot_enter c today g)) < 5000.
Proof.
  unfold acquireSlot_enter. cbv zeta.
  destruct (5000 <=? dailyCount (resetDailyIfNeeded today g)) eqn:E.
  - intros H. exfalso. exact (H _ eq_refl).
  - intros _. apply Z.leb_gt in E.
    destruct (inFlight (resetDailyIfNeeded today g)); simpl; exact E.
Qed.

Lemma quota_first s s' c :
  (forall c0 p, pc_of s c0 = Some p -> pending p = false) ->
  (forall c0, c0 <> c -> pc_of s' c0 = pc_of s c0) ->
  dailyCount (limiter s') <= 5000 ->
  (forall p, pc_of s' c = Some p -> pending p = true ->
     dailyCount (limiter s') < 5000) ->
  within_quota s'.
Proof.
  intros Hnone Hsame Hle Hlt.
  assert (Honly : forall c0 p, pc_of s' c0 = Some p -> pending p = true ->
            c0 = c).
  { intros c0 p Hp Hpend. destruct (decide (c0 = c)) as [|Hne]; [assumption|].
    rewrite (Hsame c0 Hne) in Hp. rewrite (Hnone c0 p Hp) in Hpend.
    discriminate. }
  split; [exact Hle|]. split.
  - intros c0 p Hp Hpend. pose proof (Honly c0 p Hp Hpend) as ->. eauto.
  - intros c1 c2 p1 p2 H1 H2 Hp1 Hp2.
    rewrite (Honly c1 p1 H1 Hp1), (Honly c2 p2 H2 Hp2). reflexivity.
Qed.

Lemma quota_kept s s' :
  (forall c0 p', pc_of s' c0 = Some p' -> pending p' = true ->
     exists p, pc_of s c0 = Some p /\ pending p = true) ->
  dailyCount (limiter s') = dailyCount (limiter s) ->
  within_quota s -> within_quota s'.
Proof.
  intros Hold Hcount (Hle & Hlt & Huniq). unfold within_quota.
  rewrite Hcount.
  split; [exact Hle|]. split.
  - intros c0 p' Hp' Hpend. destruct (Hold c0 p' Hp' Hpend) as (p & Hp & Hpp).
    eauto.
  - intros c1 c2 p1 p2 H1 H2 Hp1 Hp2.
    destruct (Hold c1 p1 H1 Hp1) as (q1 & Hq1 & Hqq1).
    destruct (Hold c2 p2 H2 Hp2) as (q2 & Hq2 & Hqq2). eauto.
Qed.

Lemma quota_counted s s' c (p : Pc Json) :
  pc_of s c = Some p -> pending p = true ->
  (forall c0 p', pc_of s' c0 = Some p' -> pending p' = true ->
     c0 <> c /\ pc_of s c0 = Some p') ->
  dailyCount (limiter s') = dailyCount (limiter s) + 1 ->
  within_quota s -> within_quota s'.
Proof.
  intros Hp Hpend Hold Hcount (Hle & Hlt & Huniq).
  assert (Hnone : forall c0 p', pc_of s' c0 = Some p' -> pending p' = true ->
            False).
  { intros c0 p' Hp' Hpend'. destruct (Hold c0 p' Hp' Hpend') as [Hne Hp0].
    apply Hne. eapply Huniq; eassumption. }
  unfold within_quota. rewrite Hcount.
  split; [pose proof (Hlt c p Hp Hpend); lia|]. split.
  - intros c0 p' Hp' Hpend'. destruct (Hnone c0 p' Hp' Hpend').
  - intros c1 c2 p1 p2 H1 _ Hp1 _. destruct (Hnone c1 p1 H1 Hp1).
Qed.

Lemma exec_within_quota j s s' :
  queue_ok s -> within_quota s -> unhurried j s = true ->
  step j s = Some s' -> within_quota s'.
Proof.
  intros Hok Hinv Hcalm Hexec. pose proof Hinv as (Hle & Hlt & Huniq).
  assert (Hnone : match j with
                  | Call _ _ _ _ =>
                      forall c0 p, pc_of s c0 = Some p -> pending p = false
                  | _ => True
                  end).
  { destruct j; try exact I. intros c0 p. apply none_pending.
    simpl in Hcalm. apply negb_true_iff in Hcalm. exact Hcalm. }
  clear Hcalm.
  unfold exec, take, granted in Hexec.
  repeat case_match; simplify_eq; simpl in *.
  all: try match goal with
       | H : snd (acquireSlot_enter ?c ?t ?g) = _ |- _ =>
           pose proof (enter_count c t g) as Hcount;
           pose proof (enter_below c t g) as Hbelow;
           rewrite H in Hbelow
       end.
  all: try match goal with
       | H : calls _ !! ?c = Some ?i, Hp : pc ?i = ?p |- _ =>
           assert (Hc : pc_of s c = Some p)
             by (rewrite pc_of_calls, H; simpl; congruence)
       end.
  (* calls *)
  1-4: apply (quota_first s _ c Hnone);
       [ intros c0 Hne; rewrite pc_of_insert;
         rewrite decide_False by congruence; reflexivity
       | simpl | simpl; intros p; rewrite pc_of_insert;
         rewrite decide_True by reflexivity; intros [= <-] Hp;
         try discriminate ].
  all: try (assert (Hb : dailyCount
              (fst (acquireSlot_enter c (today clk) (limiter s))) < 5000)
              by (apply Hbelow; intros e; discriminate)).
  all: try lia.
  - rewrite Hcount. destruct (negb (String.eqb _ _)); lia.
  (* the continuation of a waiter, with and without a spacing wait *)
  - apply (quota_kept s); [|reflexivity|exact Hinv].
    intros c0 p'. rewrite pc_of_insert.
    destruct (decide (c = c0)) as [<-|Hne]; [|eauto].
    intros _ _. exists QueueResolved. auto.
  - apply (quota_counted s _ c QueueResolved Hc eq_refl);
      [|reflexivity|exact Hinv].
    intros c0 p'. rewrite pc_of_insert.
    destruct (decide (c = c0)) as [<-|Hne]; [intros [= <-]; discriminate|].
    auto.
  (* the timer *)
  - apply (quota_counted s _ c (AwaitTimer deadline) Hc eq_refl);
      [|reflexivity|exact Hinv].
    intros c0 p'. rewrite pc_of_insert.
    destruct (decide (c = c0)) as [<-|Hne]; [intros [= <-]; discriminate|].
    auto.
  (* a release *)
  - apply (quota_kept s); [| |exact Hinv].
    + intros c0 p'. rewrite (pc_of_settled s c i) by assumption.
      destruct (decide (c = c0)); [intros [= <-]; discriminate|].
      destruct (decide (head (queue (limiter s)) = Some c0)) as [Hhd|];
        [|eauto].
      intros _ _. exists AwaitQueue. split; [|reflexivity].
      apply Hok. destruct (queue (limiter s)); [discriminate|].
      simpl in Hhd. left. congruence.
    + simpl. apply releaseSlot_spec.
Qed.

(** X11. The quota holds for unhurried callers.  In a run where no call is
    made while an earlier one is between the quota test and its admission
    (waiting in the queue, due to resume, or waiting for its spacing
    timer), the counter never exceeds 5000, and it is below 5000 whenever
    an invocation is about to be counted. *)
Theorem X11_quota_when_unhurried loaded t0 js s :
  steps js (boot loaded t0) = Some s ->
  unhurried_run parseQuery API_KEY js (boot loaded t0) = true ->
  dailyCount (limiter s) <= 5000 /\
  (forall c p, pc_of s c = Some p -> pending p = true ->
     dailyCount (limiter s) < 5000).
Proof.
  intros Hrun Hcalm.
  assert (Hinv : consistent s /\ within_quota s).
  { revert Hrun Hcalm.
    assert (Hstart : consistent (boot (Json := Json) loaded t0)
                     /\ within_quota (boot (Json := Json) loaded t0)).
    { split; [apply boot_consistent|]. split; [simpl; lia|].
      split; intros *; unfold pc_of; simpl; rewrite lookup_empty;
        discriminate. }
    revert Hstart. generalize (boot (Json := Json) loaded t0) as s0.
    induction js as [|j js IH]; intros s0 [Hc0 Hq0] Hrun Hcalm.
    - simpl in Hrun. injection Hrun as <-. auto.
    - simpl in Hrun, Hcalm. apply andb_true_iff in Hcalm as [Hj Hrest].
      destruct (exec parseQuery API_KEY j s0) as [s1|] eqn:Hexec;
        [|discriminate].
      apply (IH s1); [|exact Hrun|exact Hrest]. split.
      + eapply exec_consistent; eassumption.
      + eapply exec_within_quota;
          [apply Hc0 | exact Hq0 | exact Hj | exact Hexec]. }
  destruct Hinv as [_ (Hle & Hlt & _)]. auto.
Qed.

Lemma exec_timers_bounded j s s' :
  queue_ok s -> timers_bounded s -> step j s = Some s' -> timers_bounded s'.
Proof.
  intros Hok [Hlast Htimers] Hexec.
  unfold exec, take, granted in Hexec.
  repeat case_match; simplify_eq; simpl in *.
  all: try match goal with
       | H : snd (acquireSlot_enter ?c ?t ?g) = _ |- _ =>
           destruct (enter_spec c t g) as (_ & Hlt & _)
       end.
  all: repeat match goal with
       | H : negb (_ <=? _) = false |- _ =>
           apply negb_false_iff, Z.leb_le in H
       | H : (_ && _) = true |- _ =>
           apply andb_true_iff in H; destruct H as [? ?]
       | H : (_ <=? _) = true |- _ => apply Z.leb_le in H
       | H : (0 <? _) = true |- _ => apply Z.ltb_lt in H
       | H : (0 <? _) = false |- _ => apply Z.ltb_ge in H
       end.
  all: unfold timers_bounded; simpl; rewrite ?Hlt.
  1-7: (split; [lia|]; intros c0 d; rewrite pc_of_insert;
        destruct (decide (c = c0)) as [<-|Hne];
        [ try discriminate; intros [= <-]; lia
        | intros Hc0; pose proof (Htimers c0 d Hc0); lia ]).
  destruct (releaseSlot_spec (limiter s)) as (_ & _ & _ & Hrl & _).
  rewrite Hrl. split; [lia|].
  intros c0 d. rewrite (pc_of_settled s c i) by assumption.
  destruct (decide (c = c0)); [discriminate|].
  destruct (decide (head (queue (limiter s)) = Some c0)); [discriminate|].
  apply Htimers.
Qed.

(** X12. The spacing wait is bounded.  When the clock reads 0 or more at
    module load, in any state the event loop can reach the timestamp of the
    last admission is not in the future, and every spacing timer still
    running ends at most 500 ms after it, hence at most 500 ms after the
    latest clock reading: no caller sleeps longer than the spacing
    interval. *)
Theorem X12_spacing_wait_bounded loaded t0 js s :
  0 <= t0 ->
  steps js (boot loaded t0) = Some s ->
  0 <= lastRequestTime (limiter s) <= time s /\
  (forall c deadline, pc_of s c = Some (AwaitTimer deadline) ->
     deadline <= lastRequestTime (limiter s) + 500 /\
     deadline <= time s + 500).
Proof.
  intros Ht0 Hrun.
  assert (H : consistent s /\ timers_bounded s).
  { revert Hrun.
    apply (run_invariant parseQuery API_KEY
             (fun s => consistent s /\ timers_bounded s)).
    - intros j s0 s1 [Hc0 Hb0] Hexec. split.
      + eapply exec_consistent; eassumption.
      + eapply exec_timers_bounded; [apply Hc0 | exact Hb0 | exact Hexec].
    - split; [apply boot_consistent|]. split; [simpl; lia|].
      intros c d. unfold pc_of. simpl. rewrite lookup_empty. discriminate. }
  destruct H as [_ [Hlast Htimers]]. split; [exact Hlast|].
  intros c d Hc. pose proof (Htimers c d Hc). lia.
Qed.

End MoreRunFacts.

(** ** The further scenarios, run *)

Lemma X5_witness :
  schema_ok browse_onca /\
  input (toolUrl noQuery "key" browse_onca)
    = "https://api.canlii.org/v1/caseBrowse/en/onca/" /\
  searchParams (toolUrl noQuery "key" browse_onca)
    = [("api_key", "key"); ("offset", "50"); ("resultCount", "25");
       ("publishedBefore", "2024-01-01")] /\
  sent_as "api_key" (toolUrl noQuery "key" browse_onca) = ["key"].
Proof.
  assert (Hok : schema_ok browse_onca) by (simpl; lia).
  split; [exact Hok|].
  destruct (X5_tool_request noQuery "key" browse_onca Hok)
    as (Hin & Hkey & _).
  split; [exact Hin|]. split; [reflexivity | exact Hkey].
Defined.

Lemma X6_witness :
  schema_ok browse_onca /\
  sent_as "offset" (toolUrl noQuery "key" browse_onca) = ["50"] /\
  sent_as "publishedBefore" (toolUrl noQuery "key" browse_onca)
    = ["2024-01-01"] /\
  sent_as "publishedAfter" (toolUrl noQuery "key" browse_onca) = [] /\
  sent_as "decisionDateBefore" (toolUrl noQuery "key" browse_onca) = [].
Proof.
  assert (Hok : schema_ok browse_onca) by (simpl; lia).
  split; [exact Hok|].
  destruct (X6_list_cases_filters noQuery "key" En "onca" 50 25
              (Some "2024-01-01") (Some "") None None Hok)
    as (Hoff & _ & Hfilters).
  split; [exact Hoff|].
  split; [exact (Hfilters "publishedBefore" (Some "2024-01-01")
                   (or_introl eq_refl))|].
  split; [exact (Hfilters "publishedAfter" (Some "")
                   (or_intror (or_introl eq_refl)))|].
  exact (Hfilters "decisionDateBefore" None
           (or_intror (or_intror (or_introl eq_refl)))).
Defined.

Lemma X7_witness :
  ~ In "--transport" ["node"; "dist/index.js"] /\
  startup ["node"; "dist/index.js"] = ServeStdio /\
  startup ["node"; "dist/index.js"; "--transport"] = ExitUnknownTransport /\
  startup ["node"; "dist/index.js"; "--transport"; "http";
           "--transport"; "stdio"] = ServeHttp.
Proof.
  assert (Hpre : ~ In "--transport" ["node"; "dist/index.js"])
    by (simpl; intuition discriminate).
  split; [exact Hpre|].
  destruct (X7_transport_argument ["node"; "dist/index.js"]
              ["--transport"; "stdio"] Hpre) as (H1 & _ & H3 & H4 & _).
  split; [exact H1|]. split; [exact H3 | exact H4].
Defined.

Lemma X8_witness :
  "secret" <> "" /\
  bearerGate (Some "secret") (Some "Bearer secret") = true /\
  bearerGate (Some "secret") (Some "bearer secret") = false /\
  bearerGate (Some "secret") None = false /\
  bearerGate (Some "secret") (Some "secret") = false.
Proof.
  assert (Ht : "secret" <> "") by discriminate.
  split; [exact Ht|].
  destruct (X8_bearer_gate "secret" Ht) as (Hiff & Hnone & Hbare & _).
  split; [apply Hiff; reflexivity|].
  split; [|split; [exact Hnone | exact Hbare]].
  destruct (bearerGate (Some "secret") (Some "bearer secret")) eqn:E;
    [|reflexivity].
  apply Hiff in E. discriminate.
Defined.

Lemma X10_witness :
  exists s,
    demo waiting = Some s /\
    queue (limiter s) = [2; 3]%positive /\
    (forall c, pc_of s c = Some AwaitQueue <-> In c (queue (limiter s))) /\
    (exists c j s',
       exec noQuery "key" j s = Some s' /\
       (j = Resume c (time s) \/
        (exists deadline, j = TimerFired c (Z.max (time s) deadline)) \/
        j = FetchSettled c (NetworkError (mkError "")))).
Proof.
  destruct (demo waiting) as [s|] eqn:E; [|vm_compute in E; discriminate].
  assert (Hq : queue (limiter s) = [2; 3]%positive).
  { pose proof E as E'. vm_compute in E'. injection E' as <-. reflexivity. }
  destruct (X10_no_waiter_left_behind noQuery "key" day1 0 waiting s E)
    as (Hiff & Hrun).
  exists s. split; [reflexivity|]. split; [exact Hq|].
  split; [exact Hiff|]. apply Hrun. rewrite Hq. discriminate.
Defined.

Lemma X11_witness :
  exists s,
    demo one_waiter = Some s /\
    unhurried_run noQuery "key" one_waiter (boot day1 0) = true /\
    dailyCount (limiter s) = 3 /\
    dailyCount (limiter s) <= 5000.
Proof.
  destruct (demo one_waiter) as [s|] eqn:E; [|vm_compute in E; discriminate].
  assert (Hcalm : unhurried_run noQuery "key" one_waiter (boot day1 0) = true)
    by (vm_compute; reflexivity).
  assert (Hc : dailyCount (limiter s) = 3).
  { pose proof E as E'. vm_compute in E'. injection E' as <-. reflexivity. }
  exists s. split; [reflexivity|]. split; [exact Hcalm|].
  split; [exact Hc|].
  exact (proj1 (X11_quota_when_unhurried noQuery "key" day1 0 one_waiter s
                  E Hcalm)).
Defined.

Lemma X12_witness :
  exists s,
    0 <= 0 /\
    demo waiting_timer = Some s /\
    pc_of s 2 = Some (AwaitTimer 1500) /\
    0 <= lastRequestTime (limiter s) <= time s /\
    1500 <= time s + 500.
Proof.
  destruct (demo waiting_timer) as [s|] eqn:E;
    [|vm_compute in E; discriminate].
  assert (Hpc : pc_of s 2 = Some (AwaitTimer 1500)).
  { pose proof E as E'. vm_compute in E'. injection E' as <-. reflexivity. }
  assert (H0 : 0 <= 0) by lia.
  destruct (X12_spacing_wait_bounded noQuery "key" day1 0 waiting_timer s
              H0 E) as (Hlast & Htimers).
  exists s. split; [exact H0|]. split; [reflexivity|]. split; [exact Hpc|].
  split; [exact Hlast|]. exact (proj2 (Htimers 2%positive 1500 Hpc)).
Defined.

(** ** The jobs in the platform's order *)

Section TurnFacts.

Variable parseQuery : string -> SearchParams.
Variable API_KEY : string.
Context {Json : Type}.

Implicit Types (s : System Json) (c w : Caller) (j : Job Json).

Local Abbreviation step := (exec parseQuery API_KEY).
Local Abbreviation go := (turn parseQuery API_KEY).
Local Abbreviation goes := (turns parseQuery API_KEY).

Lemma turn_exec j s s' :
  go j s = Some s' -> step j s = Some s' /\ prompt j s = true.
Proof.
  unfold turn, checkpoint, prompt. intros H.
  destruct j; try (split; [exact H | reflexivity]);
    destruct (negb (resumption_due s)); try discriminate; auto.
Qed.

Lemma turns_run js s s' :
  goes js s = Some s' ->
  run parseQuery API_KEY js s = Some s' /\
  prompt_run parseQuery API_KEY js s = true.
Proof.
  revert s. induction js as [|j js IH]; intros s H; simpl in *.
  - auto.
  - destruct (go j s) as [s1|] eqn:Hj; [|discriminate].
    destruct (turn_exec j s s1 Hj) as [Hexec Hp].
    rewrite Hexec, Hp. simpl. apply IH, H.
Qed.

Lemma turns_invariant (P : System Json -> Prop) :
  (forall j s s', P s -> go j s = Some s' -> P s') ->
  forall js s s', P s -> goes js s = Some s' -> P s'.
Proof.
  intros Hstep js. induction js as [|j js IH]; intros s s' Hs Hrun.
  - simpl in Hrun. congruence.
  - simpl in Hrun. destruct (go j s) as [s1|] eqn:Hj; [|discriminate].
    eapply IH; [|exact Hrun]. eapply Hstep; eassumption.
Qed.

Lemma due_resolved s w :
  pc_of s w = Some QueueResolved -> resumption_due s = true.
Proof.
  intros Hw. destruct (resumption_due s) eqn:Hdue; [reflexivity|].
  exfalso. exact (none_due s w Hdue Hw).
Qed.

Lemma task_waits j s s' w :
  pc_of s w = Some QueueResolved -> go j s = Some s' ->
  exists c now, j = Resume c now.
Proof.
  intros Hw. unfold turn, checkpoint. rewrite (due_resolved s w Hw).
  destruct j; simpl; try discriminate. eauto.
Qed.

Lemma no_holder s w :
  serial s -> pc_of s w = Some QueueResolved -> forall c, ~ holds s c.
Proof.
  intros [Huniq _] Hw c (p & Hp & Hh).
  assert (c = w)
    by (eapply Huniq; [exact Hp | exact Hw | apply holding_busy, Hh
                      | reflexivity]).
  subst c. rewrite Hw in Hp. injection Hp as <-. discriminate.
Qed.

Lemma free_no_holder s :
  serial s -> inFlight (limiter s) = false -> forall c, ~ holds s c.
Proof.
  intros [_ Hflag] Hfree c (p & Hp & Hh).
  rewrite (Hflag c p Hp Hh) in Hfree. discriminate.
Qed.

Lemma no_holder_free s :
  flag_owned s -> (forall c, ~ holds s c) -> inFlight (limiter s) = false.
Proof.
  intros Hflag Hnone. destruct (inFlight (limiter s)) eqn:E; [|reflexivity].
  destruct (Hflag E) as [c Hc]. destruct (Hnone c Hc).
Qed.

(** What a job that hands the slot to a caller does. *)
Lemma slot_taken j s s' c :
  queue_ok s -> serial s -> flag_owned s ->
  step j s = Some s' -> ~ holds s c -> holds s' c ->
  inFlight (limiter s) = false /\
  inFlight (limiter s') = true /\
  (time s' < lastRequestTime (limiter s) + 500 ->
     pc_of s' c = Some (AwaitTimer (lastRequestTime (limiter s) + 500)) /\
     lastRequestTime (limiter s') = lastRequestTime (limiter s) /\
     admissions (log s') = admissions (log s)) /\
  (lastRequestTime (limiter s) + 500 <= time s' ->
     pc_of s' c = Some AwaitFetch /\
     lastRequestTime (limiter s') = time s' /\
     admissions (log s') = (c, time s') :: admissions (log s)).
Proof.
  intros Hok Hser Hflag Hexec Hnot Hnow.
  assert (Hkeep : forall c1 (p' : Pc Json),
            (forall c0, pc_of s' c0
                        = if decide (c1 = c0) then Some p' else pc_of s c0) ->
            (c1 = c -> holding p' = false) -> False).
  { intros c1 p' Hpc Hidle. destruct Hnow as (p & Hp & Hh).
    rewrite Hpc in Hp. destruct (decide (c1 = c)) as [He|Hne].
    - injection Hp as <-. rewrite (Hidle He) in Hh. discriminate.
    - apply Hnot. exists p. auto. }
  unfold exec, take, granted in Hexec.
  repeat case_match; simplify_eq; simpl in *.
  all: try match goal with
       | H : snd (acquireSlot_enter ?c ?t ?g) = _ |- _ =>
           destruct (enter_spec c t g) as (Hfl & Hlt & Hent);
           rewrite H in Hent; destruct Hent as [Hent _]
       end.
  all: try match goal with
       | H : calls _ !! ?c = Some ?i, Hp : pc ?i = ?p |- _ =>
           assert (Hc : pc_of s c = Some p)
             by (rewrite pc_of_calls, H; simpl; congruence)
       end.
  all: try match goal with
       | H : (0 <? _) = true |- _ => apply Z.ltb_lt in H
       | H : (0 <? _) = false |- _ => apply Z.ltb_ge in H
       end.
  (* a call that throws or is enqueued takes nothing *)
  1-2: exfalso; eapply (Hkeep c0); [intros c1; apply pc_of_insert|];
       reflexivity.
  (* the timer fires, or the slot is released: no new holder *)
  5: { exfalso. destruct (decide (c0 = c)) as [->|Hne].
       - apply Hnot. exists (AwaitTimer deadline). auto.
       - destruct Hnow as (p & Hp & Hh). rewrite pc_of_insert in Hp.
         rewrite decide_False in Hp by exact Hne. apply Hnot. exists p. auto. }
  5: { exfalso. destruct Hnow as (p & Hp & Hh).
       rewrite (pc_of_settled s c0 i) in Hp by assumption.
       destruct (decide (c0 = c)); [injection Hp as <-; discriminate|].
       destruct (decide (head (queue (limiter s)) = Some c));
         [injection Hp as <-; discriminate|].
       apply Hnot. exists p. auto. }
  (* the slot is taken *)
  all: assert (c0 = c) as ->
         by (destruct (decide (c0 = c)) as [|Hne]; [assumption|];
             exfalso; destruct Hnow as (p & Hp & Hh);
             rewrite pc_of_insert in Hp;
             rewrite decide_False in Hp by exact Hne;
             apply Hnot; exists p; auto).
  all: assert (Hfree : inFlight (limiter s) = false)
         by (first [ exact Hent
                   | apply no_holder_free;
                     [exact Hflag | eapply no_holder; eassumption] ]).
  all: rewrite ?Hlt in *.
  all: split; [exact Hfree|]; split; [reflexivity|].
  all: rewrite pc_of_insert, decide_True by reflexivity; simpl.
  all: split; intros Hcmp; try lia.
  all: repeat split; try reflexivity; f_equal; f_equal; lia.
Qed.

Lemma slot_cleared j s s' :
  step j s = Some s' ->
  inFlight (limiter s) = true -> inFlight (limiter s') = false ->
  exists c o, j = FetchSettled c o /\ holds s c.
Proof.
  intros Hexec Hset Hclear.
  unfold exec, take, granted in Hexec.
  repeat case_match; simplify_eq; simpl in *.
  all: try match goal with
       | H : snd (acquireSlot_enter ?c ?t ?g) = _ |- _ =>
           destruct (enter_spec c t g) as (Hfl & _ & _)
       end.
  all: try congruence.
  exists c, o. split; [reflexivity|]. exists AwaitFetch.
  rewrite pc_of_calls, H0. simpl. split; [congruence | reflexivity].
Qed.

(** Between the release that resolves a waiter and its continuation. *)
Lemma handover s w :
  queue_ok s -> serial s -> flag_owned s ->
  pc_of s w = Some QueueResolved ->
  (forall c, ~ holds s c) /\
  inFlight (limiter s) = false /\
  forall j s', go j s = Some s' ->
    exists now, j = Resume w now /\ holds s' w.
Proof.
  intros Hok Hser Hflag Hw.
  pose proof (no_holder s w Hser Hw) as Hnone.
  split; [exact Hnone|]. split; [apply no_holder_free; assumption|].
  intros j s' Hj.
  destruct (task_waits j s s' w Hw Hj) as (c & now & ->).
  destruct (turn_exec _ _ _ Hj) as [Hexec _].
  assert (c = w) as ->.
  { simpl in Hexec. destruct (calls s !! c) as [i|] eqn:Hi; [|discriminate].
    destruct (pc i) eqn:Hp; try discriminate.
    destruct Hser as [Huniq _].
    eapply (Huniq c w QueueResolved QueueResolved);
      [|exact Hw|reflexivity|reflexivity].
    rewrite pc_of_calls, Hi. simpl. congruence. }
  exists now. split; [reflexivity|].
  simpl in Hexec. destruct (calls s !! w) as [i|] eqn:Hi; [|discriminate].
  destruct (pc i) eqn:Hp; try discriminate.
  destruct (time s <=? now); [|discriminate].
  injection Hexec as <-. unfold take, granted, holds.
  destruct (0 <? _); rewrite pc_of_insert, decide_True by reflexivity;
    eexists; (split; [reflexivity | reflexivity]).
Qed.

End TurnFacts.

(** ** The order of arrival *)

Lemma callers_subject l c :
  In c (callers l) -> exists e, In e l /\ subject e = c.
Proof.
  induction l as [|e l IH]; simpl; [intros []|].
  destruct e; simpl; intros H;
    try (destruct (IH H) as (e' & ? & ?); eauto).
  apply List.in_app_iff in H as [H|[<-|[]]]; [|eauto].
  destruct (IH H) as (e' & ? & ?); eauto.
Qed.

Lemma passed_cons e l c :
  passed (e :: l) c = (is_enqueue c e || is_take c e) || passed l c.
Proof. reflexivity. Qed.

Lemma passed_subject l c :
  passed l c = true -> exists e, In e l /\ subject e = c.
Proof.
  unfold passed. intros H. apply existsb_exists in H as (e & Hin & He).
  exists e. split; [exact Hin|].
  destruct e; simpl in *; try discriminate;
    rewrite ?orb_false_r in He; apply Pos.eqb_eq in He; congruence.
Qed.

Lemma passed_enqueued l c : In (EvEnqueue c) l -> passed l c = true.
Proof.
  intros H. apply existsb_exists. exists (EvEnqueue c).
  split; [exact H|]. simpl. rewrite Pos.eqb_refl. reflexivity.
Qed.

Lemma fresh_unrecorded {Json : Type} (s : System Json) c :
  recorded s -> calls s !! c = None ->
  ~ In c (callers (log s)) /\ passed (log s) c = false.
Proof.
  intros [Hrec _] Hfresh. split.
  - intros H. destruct (callers_subject _ _ H) as (e & He & <-).
    exact (Hrec e He Hfresh).
  - destruct (passed (log s) c) eqn:E; [|reflexivity].
    destruct (passed_subject _ _ E) as (e & He & <-).
    destruct (Hrec e He Hfresh).
Qed.

Lemma arrivals_same e l :
  callers (e :: l) = callers l ->
  (forall c, In c (callers l) -> is_enqueue c e || is_take c e = true ->
     passed l c = true) ->
  arrivals (e :: l) = arrivals l.
Proof.
  intros Hc Hp. unfold arrivals. rewrite Hc. apply List.filter_ext_in.
  intros c Hin. rewrite passed_cons.
  destruct (is_enqueue c e || is_take c e) eqn:E; [|reflexivity].
  simpl. symmetry. apply Hp; assumption.
Qed.

Lemma arrivals_admit c t l : arrivals (EvAdmit c t :: l) = arrivals l.
Proof. apply arrivals_same; [reflexivity | discriminate]. Qed.

Lemma arrivals_fetch c u l : arrivals (EvFetch c u :: l) = arrivals l.
Proof. apply arrivals_same; [reflexivity | discriminate]. Qed.

Lemma arrivals_release c n l : arrivals (EvRelease c n :: l) = arrivals l.
Proof. apply arrivals_same; [reflexivity | discriminate]. Qed.

Lemma arrivals_resumed c l :
  passed l c = true -> arrivals (EvTake c :: l) = arrivals l.
Proof.
  intros Hp. apply arrivals_same; [reflexivity|].
  intros c0 _ H. simpl in H. apply Pos.eqb_eq in H. congruence.
Qed.

Lemma arrivals_called c r l :
  passed l c = false -> arrivals (EvCall c r :: l) = arrivals l.
Proof.
  intros Hp. unfold arrivals. simpl. rewrite List.filter_app. simpl.
  rewrite passed_cons. simpl. rewrite Hp, app_nil_r.
  apply List.filter_ext. intros c0. apply passed_cons.
Qed.

Lemma arrivals_entered e c r l :
  ~ In c (callers l) -> e = EvEnqueue c \/ e = EvTake c ->
  arrivals (e :: EvCall c r :: l) = arrivals l ++ [c].
Proof.
  intros Hnew He. unfold arrivals.
  assert (Hc : callers (e :: EvCall c r :: l) = callers l ++ [c])
    by (destruct He as [->| ->]; reflexivity).
  rewrite Hc, List.filter_app. f_equal.
  - apply List.filter_ext_in. intros c0 Hin. rewrite !passed_cons.
    assert (Hne : Pos.eqb c0 c = false)
      by (apply Pos.eqb_neq; intros ->; exact (Hnew Hin)).
    destruct He as [->| ->]; simpl; rewrite Hne; reflexivity.
  - simpl. rewrite passed_cons.
    destruct He as [->| ->]; simpl; rewrite Pos.eqb_refl; reflexivity.
Qed.

Lemma no_member (l : list positive) : (forall x, ~ In x l) -> l = [].
Proof.
  destruct l as [|x l]; [reflexivity|]. intros H.
  destruct (H x). left. reflexivity.
Qed.

Lemma sole_left (c : positive) (l1 l2 : list positive) :
  In c l1 -> (length (l1 ++ l2) <= 1)%nat -> l1 = [c] /\ l2 = [].
Proof.
  destruct l1 as [|x [|y l1]]; simpl; [intros []| |intros _ H; lia].
  intros [->|[]] H. destruct l2; [auto | simpl in H; lia].
Qed.

Lemma sole_right (c : positive) (l1 l2 : list positive) :
  In c l2 -> (length (l1 ++ l2) <= 1)%nat -> l1 = [] /\ l2 = [c].
Proof.
  rewrite length_app. destruct l2 as [|x [|y l2]]; simpl;
    [intros []| |intros _ H; lia].
  intros [->|[]] H. destruct l1; [auto | simpl in H; lia].
Qed.

Section LineFacts.

Variable parseQuery : string -> SearchParams.
Variable API_KEY : string.
Context {Json : Type}.

Implicit Types (s : System Json) (c w : Caller) (j : Job Json).

Local Abbreviation step := (exec parseQuery API_KEY).
Local Abbreviation go := (turn parseQuery API_KEY).
Local Abbreviation goes := (turns parseQuery API_KEY).

Lemma exec_recorded j s s' : recorded s -> step j s = Some s' -> recorded s'.
Proof.
  intros Hrec Hexec. pose proof Hrec as [Hsub Hnd].
  assert (Hfresh : forall c, calls s !! c = None ->
            List.NoDup (callers (log s) ++ [c])).
  { intros c Hc. apply List.NoDup_app; [exact Hnd | repeat constructor |].
    - intros [].
    - intros x Hx [<-|[]].
      exact (proj1 (fresh_unrecorded s c Hrec Hc) Hx). }
  unfold exec, take, granted in Hexec.
  repeat case_match; simplify_eq; simpl in *.
  all: split; simpl; auto.
  all: intros ev Hev; simpl in Hev.
  all: repeat (destruct Hev as [<-|Hev];
               [simpl; rewrite ?lookup_insert_eq; discriminate|]).
  1-7: rewrite lookup_insert; destruct (decide (_ = _));
       [discriminate | apply Hsub, Hev].
  destruct (releaseSlot_spec (limiter s)) as (_ & _ & _ & _ & _ & Hrn).
  assert (Hdom : forall c0, calls s !! c0 <> None ->
            wake (snd (releaseSlot (limiter s)))
              (<[c := at_pc (Returned (respond o)) i]> (calls s)) !! c0
            <> None).
  { intros c0 Hc0. rewrite Hrn, lookup_wake, lookup_insert.
    destruct (decide (c = c0)) as [<-|];
      destruct (decide (head (queue (limiter s)) = Some _)); simpl;
      try discriminate; try exact Hc0.
    destruct (calls s !! c0); [discriminate | congruence]. }
  destruct Hev as [<-|Hev]; apply Hdom;
    [simpl; rewrite H0; discriminate | apply Hsub, Hev].
Qed.

Lemma exec_well_called j s s' :
  well_called (log s) -> step j s = Some s' -> well_called (log s').
Proof.
  intros Hwc Hexec.
  unfold exec, take, granted in Hexec.
  repeat case_match; simplify_eq; simpl in *; auto.
Qed.

Lemma exec_in_line j s s' :
  queue_ok s -> serial s -> waiters_served s -> recorded s -> in_line s ->
  prompt j s = true -> step j s = Some s' -> in_line s'.
Proof.
  intros Hok Hser [_ Hbusy] Hrec (timer & due & Heq & Htimer & Hdue & Hlen)
    Hprompt Hexec.
  pose proof Hser as [Huniq Hflag]. pose proof Hok as [_ Hq].
  assert (Hnone : match j with
                  | Call _ _ _ _ =>
                      forall c, pc_of s c <> Some QueueResolved
                  | _ => True
                  end).
  { destruct j; try exact I. intros c0. apply none_due.
    simpl in Hprompt. apply negb_true_iff in Hprompt. exact Hprompt. }
  clear Hprompt.
  (* when the slot is free and no continuation is due, nobody waits *)
  assert (Hidle : inFlight (limiter s) = false ->
            (forall c, pc_of s c <> Some QueueResolved) ->
            timer = [] /\ due = [] /\ queue (limiter s) = []).
  { intros Hfree Hno. split; [|split].
    - apply no_member. intros x Hx. apply Htimer in Hx as [d Hx].
      rewrite (Hflag x _ Hx eq_refl) in Hfree. discriminate.
    - apply no_member. intros x Hx. apply Hdue in Hx. exact (Hno x Hx).
    - destruct (queue (limiter s)) as [|w rest] eqn:Hqe; [reflexivity|].
      exfalso. destruct Hbusy as (c1 & p & Hp & Hb); [discriminate|].
      destruct p; try discriminate.
      + exact (Hno c1 Hp).
      + rewrite (Hflag c1 _ Hp eq_refl) in Hfree. discriminate.
      + rewrite (Hflag c1 _ Hp eq_refl) in Hfree. discriminate. }
  (* a busy invocation is the only one *)
  assert (Hsole : forall c p, pc_of s c = Some p -> busy p = true ->
            forall x, (In x timer \/ In x due) -> x = c).
  { intros c p Hp Hb x [Hx|Hx].
    - apply Htimer in Hx as [d Hx]. eapply Huniq; eauto.
    - apply Hdue in Hx. eapply Huniq; eauto. }
  unfold exec, take, granted in Hexec.
  repeat case_match; simplify_eq; simpl in *.
  all: try match goal with
       | H : snd (acquireSlot_enter ?c ?t ?g) = _ |- _ =>
           destruct (enter_spec c t g) as (_ & _ & Hent);
           rewrite H in Hent; destruct Hent as [Hent1 Hent2]
       end.
  all: try match goal with
       | H : calls _ !! ?c = None |- _ =>
           assert (Hc : pc_of s c = None)
             by (rewrite pc_of_calls, H; reflexivity);
           destruct (fresh_unrecorded s c Hrec H) as [Hnew Hnot]
       | H : calls _ !! ?c = Some ?i, Hp : pc ?i = ?p |- _ =>
           assert (Hc : pc_of s c = Some p)
             by (rewrite pc_of_calls, H; simpl; congruence)
       end.
  all: unfold in_line; simpl.
  all: rewrite ?arrivals_fetch, ?arrivals_admit, ?arrivals_release.
  - (* the call throws *)
    exists timer, due. rewrite arrivals_called, Hent2 by exact Hnot.
    split; [exact Heq|]. split; [|split; [|exact Hlen]].
    + intros c0. rewrite pc_of_insert, Htimer.
      destruct (decide (c = c0)) as [<-|]; [|reflexivity].
      rewrite Hc. split; intros [d Hd]; discriminate.
    + intros c0. rewrite pc_of_insert, Hdue.
      destruct (decide (c = c0)) as [<-|]; [|reflexivity].
      rewrite Hc. split; discriminate.
  - (* the call is enqueued *)
    exists timer, due.
    rewrite (arrivals_entered (EvEnqueue c)), Hent2, Heq by auto.
    split; [rewrite <- !app_assoc; reflexivity|].
    split; [|split; [|exact Hlen]].
    + intros c0. rewrite pc_of_insert, Htimer.
      destruct (decide (c = c0)) as [<-|]; [|reflexivity].
      rewrite Hc. split; intros [d Hd]; discriminate.
    + intros c0. rewrite pc_of_insert, Hdue.
      destruct (decide (c = c0)) as [<-|]; [|reflexivity].
      rewrite Hc. split; discriminate.
  - (* the call takes the slot and waits *)
    destruct (Hidle Hent1 Hnone) as (-> & -> & Hempty).
    exists [c], [].
    rewrite (arrivals_entered (EvTake c)), Hent2, Heq, Hempty by auto.
    split; [simpl; rewrite !app_nil_r; reflexivity|].
    split; [|split; [|simpl; lia]].
    + intros c0. rewrite pc_of_insert.
      destruct (decide (c = c0)) as [<-|Hne].
      * split; [eauto | intros _; left; reflexivity].
      * rewrite <- ?(pc_of_calls s c0), <- Htimer. simpl. intuition congruence.
    + intros c0. rewrite pc_of_insert.
      destruct (decide (c = c0)) as [<-|Hne]; [split; [intros []|discriminate]|].
      rewrite <- ?(pc_of_calls s c0), <- Hdue. reflexivity.
  - (* the call takes the slot and is admitted *)
    destruct (Hidle Hent1 Hnone) as (-> & -> & Hempty).
    exists [], [].
    rewrite (arrivals_entered (EvTake c)), Hent2, Heq, Hempty by auto.
    split; [simpl; rewrite !app_nil_r; reflexivity|].
    split; [|split; [|simpl; lia]].
    + intros c0. rewrite pc_of_insert.
      destruct (decide (c = c0)) as [<-|Hne].
      * split; [intros [] | intros [d Hd]; discriminate].
      * rewrite <- ?(pc_of_calls s c0), <- Htimer. reflexivity.
    + intros c0. rewrite pc_of_insert.
      destruct (decide (c = c0)) as [<-|Hne]; [split; [intros []|discriminate]|].
      rewrite <- ?(pc_of_calls s c0), <- Hdue. reflexivity.
  - (* a waiter resumes and waits *)
    destruct (sole_right c timer due (proj2 (Hdue c) Hc) Hlen) as [-> ->].
    exists [c], [].
    rewrite arrivals_resumed.
    2: { assert (Hin : In c (arrivals (log s)))
           by (rewrite Heq; apply List.in_app_iff; right; left; reflexivity).
         apply List.filter_In in Hin. apply Hin. }
    split; [exact Heq|]. split; [|split; [|simpl; lia]].
    + intros c0. rewrite pc_of_insert.
      destruct (decide (c = c0)) as [<-|Hne].
      * split; [eauto | intros _; left; reflexivity].
      * rewrite <- ?(pc_of_calls s c0), <- Htimer. simpl. intuition congruence.
    + intros c0. rewrite pc_of_insert.
      destruct (decide (c = c0)) as [<-|Hne]; [split; [intros []|discriminate]|].
      rewrite <- ?(pc_of_calls s c0), <- Hdue. simpl. intuition congruence.
  - (* a waiter resumes and is admitted *)
    destruct (sole_right c timer due (proj2 (Hdue c) Hc) Hlen) as [-> ->].
    exists [], [].
    rewrite arrivals_resumed.
    2: { assert (Hin : In c (arrivals (log s)))
           by (rewrite Heq; apply List.in_app_iff; right; left; reflexivity).
         apply List.filter_In in Hin. apply Hin. }
    split; [rewrite Heq, <- app_assoc; reflexivity|].
    split; [|split; [|simpl; lia]].
    + intros c0. rewrite pc_of_insert.
      destruct (decide (c = c0)) as [<-|Hne].
      * split; [intros [] | intros [d Hd]; discriminate].
      * rewrite <- ?(pc_of_calls s c0), <- Htimer. reflexivity.
    + intros c0. rewrite pc_of_insert.
      destruct (decide (c = c0)) as [<-|Hne]; [split; [intros []|discriminate]|].
      rewrite <- ?(pc_of_calls s c0), <- Hdue. simpl. intuition congruence.
  - (* the timer fires *)
    destruct (sole_left c timer due (proj2 (Htimer c) (ex_intro _ _ Hc)) Hlen)
      as [-> ->].
    exists [], [].
    split; [rewrite Heq, <- app_assoc; reflexivity|].
    split; [|split; [|simpl; lia]].
    + intros c0. rewrite pc_of_insert.
      destruct (decide (c = c0)) as [<-|Hne].
      * split; [intros [] | intros [d Hd]; discriminate].
      * rewrite <- ?(pc_of_calls s c0), <- Htimer. simpl. intuition congruence.
    + intros c0. rewrite pc_of_insert.
      destruct (decide (c = c0)) as [<-|Hne]; [split; [intros []|discriminate]|].
      rewrite <- ?(pc_of_calls s c0), <- Hdue. reflexivity.
  - (* the slot is released *)
    assert (timer = []) as ->.
    { apply no_member. intros x Hx.
      pose proof (Hsole c AwaitFetch Hc eq_refl x (or_introl Hx)) as ->.
      apply Htimer in Hx as [d Hx]. congruence. }
    assert (due = []) as ->.
    { apply no_member. intros x Hx.
      pose proof (Hsole c AwaitFetch Hc eq_refl x (or_intror Hx)) as ->.
      apply Hdue in Hx. congruence. }
    destruct (releaseSlot_spec (limiter s)) as (_ & _ & _ & _ & Hrq & _).
    exists [], (match head (queue (limiter s)) with
                | Some w => [w]
                | None => []
                end).
    rewrite Hrq.
    split; [rewrite Heq; destruct (queue (limiter s)); reflexivity|].
    split; [|split; [|destruct (head (queue (limiter s))); simpl; lia]].
    + intros c0. rewrite (pc_of_settled s c i) by assumption.
      destruct (decide (c = c0)) as [<-|Hne];
        [split; [intros [] | intros [d Hd]; discriminate]|].
      destruct (decide (head (queue (limiter s)) = Some c0));
        [split; [intros [] | intros [d Hd]; discriminate]|].
      rewrite <- ?(pc_of_calls s c0), <- Htimer. reflexivity.
    + intros c0. rewrite (pc_of_settled s c i) by assumption.
      assert (Hhead : head (queue (limiter s)) <> Some c).
      { intros Hhd. assert (Hin : In c (queue (limiter s))).
        { destruct (queue (limiter s)); [discriminate|].
          simpl in Hhd. left. congruence. }
        apply Hq in Hin. congruence. }
      destruct (decide (c = c0)) as [<-|Hne].
      * split; [|discriminate]. intros Hin.
        destruct (head (queue (limiter s))) as [w|]; [|destruct Hin].
        destruct Hin as [->|[]]. congruence.
      * destruct (decide (head (queue (limiter s)) = Some c0)) as [Hhd|Hhd].
        -- rewrite Hhd. split; [reflexivity | intros _; left; reflexivity].
        -- rewrite <- ?(pc_of_calls s c0), <- Hdue. simpl.
           destruct (head (queue (limiter s))) as [w|]; simpl;
             intuition congruence.
Qed.

Lemma turn_orderly j s s' : orderly s -> go j s = Some s' -> orderly s'.
Proof.
  intros (Hc & Hs & Hp & Hw & Hr & Hwc & Hl) Hj.
  destruct (turn_exec parseQuery API_KEY j s s' Hj) as [Hexec Hprompt].
  repeat split.
  - eapply exec_queue_ok; [apply Hc | exact Hexec].
  - eapply exec_queue_ok; [apply Hc | exact Hexec].
  - eapply exec_accounted; [apply Hc | apply Hc | exact Hexec].
  - eapply exec_flag_owned; [apply Hc | apply Hc | exact Hexec].
  - eapply exec_serial; [apply Hc | exact Hs | exact Hprompt | exact Hexec].
  - eapply exec_serial; [apply Hc | exact Hs | exact Hprompt | exact Hexec].
  - eapply exec_paced; [apply Hc | exact Hs | exact Hp | exact Hexec].
  - eapply exec_paced; [apply Hc | exact Hs | exact Hp | exact Hexec].
  - eapply exec_paced; [apply Hc | exact Hs | exact Hp | exact Hexec].
  - eapply exec_waiters_served; [apply Hc | apply Hc | exact Hw | exact Hexec].
  - eapply exec_waiters_served; [apply Hc | apply Hc | exact Hw | exact Hexec].
  - eapply exec_recorded; eassumption.
  - eapply exec_recorded; eassumption.
  - eapply exec_well_called; eassumption.
  - eapply exec_in_line; [apply Hc | exact Hs | exact Hw | exact Hr | exact Hl
                         | exact Hprompt | exact Hexec].
Qed.

Lemma boot_orderly loaded t0 : orderly (boot (Json := Json) loaded t0).
Proof.
  assert (Hno : forall c, pc_of (boot (Json := Json) loaded t0) c = None)
    by (intros c; unfold pc_of; simpl; rewrite lookup_empty; reflexivity).
  split; [apply boot_consistent|]. split; [apply boot_serial|].
  split; [apply boot_paced|]. split; [|split; [|split]].
  - split; [intros c; rewrite Hno; discriminate | intros H; contradiction].
  - split; [intros e [] | constructor].
  - exact I.
  - exists [], []. split; [reflexivity|].
    split; [|split; [|simpl; lia]]; intros c; rewrite Hno.
    + split; [intros [] | intros [d Hd]; discriminate].
    + split; [intros [] | discriminate].
Qed.

Lemma reachable_orderly loaded t0 js s :
  goes js (boot loaded t0) = Some s -> orderly s.
Proof.
  apply (turns_invariant parseQuery API_KEY orderly).
  - intros j s0 s1. apply turn_orderly.
  - apply boot_orderly.
Qed.

End LineFacts.

(** ** Orders in a history and in the lists read off its log *)

Lemma callers_app l1 l2 : callers (l1 ++ l2) = callers l2 ++ callers l1.
Proof.
  induction l1 as [|e l1 IH]; simpl; [rewrite app_nil_r; reflexivity|].
  destruct e; simpl; rewrite ?IH, ?app_assoc; reflexivity.
Qed.

Lemma before_callers l c1 c2 :
  before (is_call c1) (is_call c2) (rev l) ->
  exists a b d, callers l = a ++ c1 :: b ++ c2 :: d.
Proof.
  intros (h1 & e1 & h2 & e2 & h3 & Hh & H1 & H2).
  assert (Hl : l = rev h3 ++ e2 :: rev h2 ++ e1 :: rev h1).
  { rewrite <- (rev_involutive l), Hh.
    rewrite !rev_app_distr. simpl. rewrite ?rev_app_distr. simpl.
    rewrite <- !app_assoc. reflexivity. }
  destruct e1; try discriminate. destruct e2; try discriminate.
  simpl in H1, H2. apply Pos.eqb_eq in H1, H2. subst.
  exists (callers (rev h1)), (callers (rev h2)), (callers (rev h3)).
  rewrite callers_app. simpl. rewrite callers_app. simpl.
  rewrite <- !app_assoc. reflexivity.
Qed.

Lemma admitted_split l a c d :
  admitted l = a ++ c :: d ->
  exists l2 t l1,
    l = l2 ++ EvAdmit c t :: l1 /\ admitted l1 = a /\ admitted l2 = d.
Proof.
  revert a d. induction l as [|e l IH]; intros a d H; simpl in H.
  - destruct a; discriminate.
  - destruct e;
      try (destruct (IH a d H) as (l2 & t1 & l1 & -> & Ha & Hd);
           eexists (_ :: l2), t1, l1; repeat split; assumption).
    destruct d as [|x d _] using rev_ind.
    + apply app_inj_tail in H as [Ha <-].
      exists [], t, l. repeat split. exact Ha.
    + rewrite app_comm_cons, app_assoc in H.
      apply app_inj_tail in H as [Ha <-].
      destruct (IH a d Ha) as (l2 & t1 & l1 & -> & Ha' & Hd).
      exists (EvAdmit c0 t :: l2), t1, l1. repeat split; [exact Ha'|].
      simpl. rewrite Hd. reflexivity.
Qed.

Lemma admitted_before l a c1 b c2 d :
  admitted l = a ++ c1 :: b ++ c2 :: d ->
  before (is_admit c1) (is_admit c2) (rev l).
Proof.
  intros H.
  destruct (admitted_split l a c1 (b ++ c2 :: d) H)
    as (l2 & t1 & l1 & -> & _ & H2).
  destruct (admitted_split l2 b c2 d H2) as (l4 & t2 & l3 & -> & _ & _).
  exists (rev l1), (EvAdmit c1 t1), (rev l3), (EvAdmit c2 t2), (rev l4).
  split; [|split; simpl; apply Pos.eqb_refl].
  rewrite !rev_app_distr. simpl. rewrite ?rev_app_distr. simpl.
  rewrite <- !app_assoc. reflexivity.
Qed.

Lemma in_admitted l c :
  (exists e, In e l /\ is_admit c e = true) -> In c (admitted l).
Proof.
  induction l as [|e0 l IH]; intros (e & Hin & He); [destruct Hin|].
  destruct Hin as [->|Hin].
  - destruct e; try discriminate. simpl in *. apply Pos.eqb_eq in He.
    subst. apply List.in_app_iff. right. left. reflexivity.
  - assert (Hl : In c (admitted l)) by (apply IH; eauto).
    destruct e0; simpl; try exact Hl. apply List.in_app_iff. auto.
Qed.

Lemma admitted_admissions l : admitted l = List.map fst (admissions (rev l)).
Proof.
  rewrite admissions_rev, List.map_rev.
  induction l as [|e l IH]; simpl; [reflexivity|].
  destruct e; simpl; rewrite ?IH; reflexivity.
Qed.

Lemma split_unique (x : positive) a b a' b' :
  List.NoDup (a ++ x :: b) -> a ++ x :: b = a' ++ x :: b' ->
  a = a' /\ b = b'.
Proof.
  revert a'. induction a as [|y a IH]; intros a' Hnd H.
  - destruct a' as [|y' a']; simpl in *.
    + injection H as ->. auto.
    + injection H as <- H. exfalso.
      apply List.NoDup_cons_iff in Hnd as [Hx _]. apply Hx. rewrite H.
      apply List.in_elt.
  - destruct a' as [|y' a']; simpl in *.
    + injection H as -> H. exfalso.
      apply List.NoDup_cons_iff in Hnd as [Hx _]. apply Hx.
      apply List.in_elt.
    + injection H as <- H. apply List.NoDup_cons_iff in Hnd as [_ Hnd].
      destruct (IH a' Hnd H) as [-> ->]. auto.
Qed.

Lemma earlier_in_prefix (L A R a b d : list positive) c1 c2 :
  List.NoDup L -> L = A ++ R -> L = a ++ c1 :: b ++ c2 :: d -> In c2 A ->
  exists b', A = a ++ c1 :: b ++ c2 :: b'.
Proof.
  intros Hnd HA HL Hin. apply List.in_split in Hin as (x & y & ->).
  rewrite <- app_assoc in HA. simpl in HA.
  assert (Hxy : x = a ++ c1 :: b /\ y ++ R = d).
  { apply (split_unique c2); [rewrite <- HA; exact Hnd|].
    rewrite <- HA, HL, <- app_assoc. reflexivity. }
  destruct Hxy as [-> _]. exists y. rewrite <- app_assoc. reflexivity.
Qed.

Lemma well_called_split l2 c l1 :
  well_called (l2 ++ EvEnqueue c :: l1) -> exists r l0, l1 = EvCall c r :: l0.
Proof.
  induction l2 as [|e l2 IH]; simpl.
  - intros [H _]. destruct l1 as [|[] l1]; try contradiction.
    subst. eauto.
  - destruct e; intros H; apply IH; try exact H. apply H.
Qed.

Lemma queued_called l c1 c2 :
  well_called l -> before (is_enqueue c1) (is_call c2) (rev l) ->
  before (is_call c1) (is_call c2) (rev l) /\ passed l c1 = true.
Proof.
  intros Hwc (h1 & e1 & h2 & e2 & h3 & Hh & H1 & H2).
  destruct e1; try discriminate. simpl in H1. apply Pos.eqb_eq in H1.
  subst c.
  assert (Hl : l = (rev h3 ++ e2 :: rev h2) ++ EvEnqueue c1 :: rev h1).
  { rewrite <- (rev_involutive l), Hh.
    rewrite !rev_app_distr. simpl. rewrite ?rev_app_distr. simpl.
    rewrite <- !app_assoc. reflexivity. }
  rewrite Hl in Hwc. destruct (well_called_split _ _ _ Hwc) as (r & l0 & Hl0).
  assert (Hh1 : h1 = rev l0 ++ [EvCall c1 r])
    by (rewrite <- (rev_involutive h1), Hl0; reflexivity).
  split.
  - exists (rev l0), (EvCall c1 r), (EvEnqueue c1 :: h2), e2, h3.
    split; [|split; [simpl; apply Pos.eqb_refl | exact H2]].
    rewrite Hh, Hh1, <- app_assoc. reflexivity.
  - apply passed_enqueued. rewrite Hl. apply List.in_elt.
Qed.

Lemma first_come {Json : Type} (s : System Json) c1 c2 :
  recorded s -> in_line s ->
  before (is_call c1) (is_call c2) (history s) ->
  passed (log s) c1 = true ->
  (exists e, In e (history s) /\ is_admit c2 e = true) ->
  before (is_admit c1) (is_admit c2) (history s).
Proof.
  intros [_ Hnd] (timer & due & Heq & _) Hcalls Hp1 (e & He & Hadm).
  unfold history in *.
  destruct (before_callers _ _ _ Hcalls) as (a & b & d & Hcs).
  assert (Hin2 : In c2 (admitted (log s))).
  { apply in_admitted. exists e. split; [|exact Hadm].
    apply List.in_rev. exact He. }
  assert (Hp2 : passed (log s) c2 = true).
  { assert (Hin : In c2 (arrivals (log s)))
      by (rewrite Heq; apply List.in_app_iff; left; exact Hin2).
    apply List.filter_In in Hin. apply Hin. }
  assert (Harr : arrivals (log s)
                 = List.filter (passed (log s)) a
                   ++ c1 :: List.filter (passed (log s)) b
                   ++ c2 :: List.filter (passed (log s)) d).
  { unfold arrivals. rewrite Hcs, List.filter_app. simpl. rewrite Hp1.
    rewrite List.filter_app. simpl. rewrite Hp2. reflexivity. }
  destruct (earlier_in_prefix (arrivals (log s)) (admitted (log s))
              (timer ++ due ++ queue (limiter s))
              (List.filter (passed (log s)) a)
              (List.filter (passed (log s)) b)
              (List.filter (passed (log s)) d) c1 c2)
    as (b' & Hadm'); [|exact Heq|exact Harr|exact Hin2|].
  - apply List.NoDup_filter. exact Hnd.
  - eapply admitted_before. exact Hadm'.
Qed.

(** ** One request at a time, in order, two a second *)

Section OrderFacts.

Variable parseQuery : string -> SearchParams.
Variable API_KEY : string.
Context {Json : Type}.

Implicit Types (s : System Json) (c w : Caller) (j : Job Json).

Local Abbreviation step := (exec parseQuery API_KEY).
Local Abbreviation go := (turn parseQuery API_KEY).
Local Abbreviation goes := (turns parseQuery API_KEY).

(** C1. One caller at a time holds the slot.  In any state the event loop
    reaches, taking the jobs in the platform's order: at most one invocation
    is between line 48 and its [releaseSlot], and the flag is set exactly
    when one is; a job gives the slot to a caller only when the flag is
    clear and nobody holds it, and sets the flag; a job clears a set flag
    only by running [releaseSlot] for the invocation that holds the slot;
    and between a release that resolves a waiter and the continuation of
    that waiter nobody holds the slot and no job can run but this
    continuation, which takes it. *)
Theorem C1_one_holder_at_a_time loaded t0 js s :
  goes js (boot loaded t0) = Some s ->
  exclusive s /\
  (forall c, holds s c -> inFlight (limiter s) = true) /\
  (inFlight (limiter s) = true -> exists c, holds s c) /\
  (forall j s' c, go j s = Some s' -> ~ holds s c -> holds s' c ->
     inFlight (limiter s) = false /\
     (forall c0, ~ holds s c0) /\
     inFlight (limiter s') = true) /\
  (forall j s', go j s = Some s' ->
     inFlight (limiter s) = true -> inFlight (limiter s') = false ->
     exists c o, j = FetchSettled c o /\ holds s c) /\
  (forall w, pc_of s w = Some QueueResolved ->
     (forall c, ~ holds s c) /\
     forall j s', go j s = Some s' ->
       exists now, j = Resume w now /\ holds s' w).
Proof.
  intros Hrun.
  destruct (reachable_orderly parseQuery API_KEY loaded t0 js s Hrun)
    as ((Hq & _ & Hfl) & Hser & _).
  split; [apply serial_exclusive, Hser|].
  split; [intros c (p & Hp & Hh); eapply Hser; eassumption|].
  split; [exact Hfl|]. split; [|split].
  - intros j s' c Hj Hnot Hnow.
    destruct (turn_exec parseQuery API_KEY j s s' Hj) as [Hexec _].
    destruct (slot_taken parseQuery API_KEY j s s' c Hq Hser Hfl Hexec
                Hnot Hnow) as (Hfree & Hset & _).
    split; [exact Hfree|]. split; [|exact Hset].
    apply free_no_holder; assumption.
  - intros j s' Hj.
    destruct (turn_exec parseQuery API_KEY j s s' Hj) as [Hexec _].
    eapply slot_cleared. exact Hexec.
  - intros w Hw.
    destruct (handover parseQuery API_KEY s w Hq Hser Hfl Hw)
      as (Hnone & _ & Hnext).
    split; assumption.
Qed.

(** C2. First come, first served.  In any state the event loop reaches,
    taking the jobs in the platform's order: the callers that passed the
    quota test are, in the order of their calls, the callers admitted so
    far in the order of their admissions, then the caller waiting for its
    spacing timer, then the waiter due to resume, then [queue] in its
    order; so a caller that passed the test, or sat in the queue, before
    another was called is admitted before it; and a release takes the head
    of [queue], resolves it, and no job can run before its continuation,
    which takes the slot. *)
Theorem C2_first_come_first_served loaded t0 js s :
  goes js (boot loaded t0) = Some s ->
  in_line s /\
  admitted (log s) = List.map fst (admissions (history s)) /\
  (forall c1 c2,
     before (is_call c1) (is_call c2) (history s) ->
     passed (log s) c1 = true ->
     (exists e, In e (history s) /\ is_admit c2 e = true) ->
     before (is_admit c1) (is_admit c2) (history s)) /\
  (forall c1 c2,
     before (is_enqueue c1) (is_call c2) (history s) ->
     (exists e, In e (history s) /\ is_admit c2 e = true) ->
     before (is_admit c1) (is_admit c2) (history s)) /\
  (forall c o s', go (FetchSettled c o) s = Some s' ->
     snd (releaseSlot (limiter s)) = head (queue (limiter s)) /\
     queue (limiter s') = tail (queue (limiter s)) /\
     forall w, head (queue (limiter s)) = Some w ->
       pc_of s' w = Some QueueResolved /\
       forall j s'', go j s' = Some s'' ->
         exists now, j = Resume w now /\ holds s'' w).
Proof.
  intros Hrun.
  pose proof (reachable_orderly parseQuery API_KEY loaded t0 js s Hrun)
    as Hord.
  pose proof Hord as ((Hq & _ & Hfl) & Hser & _ & _ & Hrec & Hwc & Hline).
  split; [exact Hline|]. split; [apply admitted_admissions|].
  split; [|split].
  - intros c1 c2. apply first_come; assumption.
  - intros c1 c2 Hbefore Hadm.
    destruct (queued_called (log s) c1 c2 Hwc Hbefore) as [Hcalls Hp].
    apply first_come; assumption.
  - intros c o s' Hj.
    pose proof (turn_orderly parseQuery API_KEY _ s s' Hord Hj)
      as ((Hq' & _ & Hfl') & Hser' & _).
    destruct (turn_exec parseQuery API_KEY _ s s' Hj) as [Hexec _].
    destruct (releaseSlot_spec (limiter s)) as (_ & _ & _ & _ & Hrq & Hrn).
    split; [exact Hrn|].
    simpl in Hexec. destruct (calls s !! c) as [i|] eqn:Hi; [|discriminate].
    destruct (pc i) eqn:Hp; try discriminate. injection Hexec as <-.
    split; [exact Hrq|]. intros w Hw.
    assert (Hpc : pc_of (mkSystem (fst (releaseSlot (limiter s)))
                           (wake (snd (releaseSlot (limiter s)))
                              (<[c := at_pc (Returned (respond o)) i]>
                                 (calls s)))
                           (EvRelease c (snd (releaseSlot (limiter s)))
                              :: log s) (time s)) w
                  = Some QueueResolved).
    { rewrite (pc_of_settled s c i) by assumption.
      rewrite (decide_True _ _ Hw). destruct (decide (c = w)) as [<-|];
        [|reflexivity].
      exfalso. assert (Hin : In c (queue (limiter s))).
      { destruct (queue (limiter s)); [discriminate|].
        simpl in Hw. left. congruence. }
      apply Hq in Hin. rewrite pc_of_calls, Hi in Hin. simpl in Hin.
      congruence. }
    split; [exact Hpc|].
    apply (handover parseQuery API_KEY _ w Hq' Hser' Hfl' Hpc).
Qed.

(** C6. Two requests a second.  In any state the event loop reaches, taking
    the jobs in the platform's order: any two consecutive admissions are at
    least 500 ms apart; a caller that takes the slot less than 500 ms after
    the last admission is suspended on a timer that ends 500 ms after it,
    with the flag set and the timestamp left as it was, and a caller that
    takes it later is admitted at once; and a caller waiting for its timer
    holds the slot, is not yet admitted, and when the timer has fired, no
    earlier than asked, records that instant as its admission. *)
Theorem C6_admissions_spaced loaded t0 js s :
  goes js (boot loaded t0) = Some s ->
  spaced (admissions (history s)) /\
  (forall j s' c, go j s = Some s' -> ~ holds s c -> holds s' c ->
     (time s' < lastRequestTime (limiter s) + 500 ->
        pc_of s' c = Some (AwaitTimer (lastRequestTime (limiter s) + 500)) /\
        inFlight (limiter s') = true /\
        lastRequestTime (limiter s') = lastRequestTime (limiter s) /\
        admissions (log s') = admissions (log s)) /\
     (lastRequestTime (limiter s) + 500 <= time s' ->
        pc_of s' c = Some AwaitFetch /\
        lastRequestTime (limiter s') = time s' /\
        admissions (log s') = (c, time s') :: admissions (log s))) /\
  (forall c deadline, pc_of s c = Some (AwaitTimer deadline) ->
     holds s c /\
     inFlight (limiter s) = true /\
     lastRequestTime (limiter s) + 500 <= deadline /\
     count (is_admit c) (log s) = 0%nat /\
     forall t s', go (TimerFired c t) s = Some s' ->
       deadline <= t /\
       lastRequestTime (limiter s') = t /\
       admissions (log s') = (c, t) :: admissions (log s)).
Proof.
  intros Hrun.
  destruct (reachable_orderly parseQuery API_KEY loaded t0 js s Hrun)
    as ((Hq & Hacc & Hfl) & Hser & (Hsp & _ & Htimers) & _).
  split; [|split].
  - unfold history. rewrite admissions_rev. apply spaced_back_rev, Hsp.
  - intros j s' c Hj Hnot Hnow.
    destruct (turn_exec parseQuery API_KEY j s s' Hj) as [Hexec _].
    destruct (slot_taken parseQuery API_KEY j s s' c Hq Hser Hfl Hexec
                Hnot Hnow) as (_ & Hset & Hwait & Hgo).
    split.
    + intros Hlt. destruct (Hwait Hlt) as (H1 & H2 & H3). auto.
    + exact Hgo.
  - intros c deadline Hc.
    split; [exists (AwaitTimer deadline); auto|].
    split; [eapply Hser; [exact Hc | reflexivity]|].
    split; [apply (Htimers c), Hc|]. split.
    + pose proof (Hacc c) as Hcount. unfold accounted, tally in Hcount.
      rewrite Hc in Hcount. congruence.
    + intros t s' Hj.
      destruct (turn_exec parseQuery API_KEY _ s s' Hj) as [Hexec _].
      simpl in Hexec. rewrite pc_of_calls in Hc.
      destruct (calls s !! c) as [i|]; [|discriminate].
      simpl in Hc. injection Hc as Hc. rewrite Hc in Hexec.
      destruct ((time s <=? t) && (deadline <=? t)) eqn:Hok; [|discriminate].
      apply andb_true_iff in Hok as [_ Hok]. apply Z.leb_le in Hok.
      injection Hexec as <-. simpl. auto.
Qed.

End OrderFacts.

(** ** The platform's order, run *)

Lemma first_at_split (p : Event -> bool) h i :
  first_at p h = Some i -> exists h1 e h2, h = h1 ++ e :: h2 /\ p e = true.
Proof.
  revert i. induction h as [|e h IH]; intros i H; simpl in H; [discriminate|].
  destruct (p e) eqn:He.
  - exists [], e, h. auto.
  - destruct (first_at p h) as [k|]; [|discriminate].
    destruct (IH k eq_refl) as (h1 & e' & h2 & -> & He').
    exists (e :: h1), e', h2. auto.
Qed.

Lemma before_first_at (p q : Event -> bool) h i j :
  first_at p h = Some i -> first_at q h = Some j -> (i < j)%nat ->
  before p q h.
Proof.
  revert i j. induction h as [|e h IH]; intros i j Hp Hq Hlt; simpl in *;
    [discriminate|].
  destruct (q e) eqn:Hqe.
  - injection Hq as <-. lia.
  - destruct (first_at q h) as [j'|] eqn:Hq'; [|discriminate].
    injection Hq as <-. destruct (p e) eqn:Hpe.
    + destruct (first_at_split q h j' Hq') as (h1 & e2 & h2 & -> & He2).
      exists [], e, h1, e2, h2. auto.
    + destruct (first_at p h) as [i'|] eqn:Hp'; [|discriminate].
      injection Hp as <-.
      destruct (IH i' j' eq_refl eq_refl ltac:(lia))
        as (h1 & e1 & h2 & e2 & h3 & -> & H1 & H2).
      exists (e :: h1), e1, h2, e2, h3. auto.
Qed.

Lemma C1_witness :
  exists s,
    turns noQuery "key" handing_over (boot day1 0) = Some s /\
    pc_of s 2 = Some QueueResolved /\
    queue (limiter s) = [3%positive] /\
    exclusive s /\
    (forall c, ~ holds s c) /\
    (forall j s', turn noQuery "key" j s = Some s' ->
       exists now, j = Resume 2 now /\ holds s' 2).
Proof.
  destruct (turns noQuery "key" handing_over (boot day1 0)) as [s|] eqn:E;
    [|vm_compute in E; discriminate].
  assert (Hs : pc_of s 2 = Some QueueResolved
               /\ queue (limiter s) = [3%positive]).
  { pose proof E as E'. vm_compute in E'. injection E' as <-.
    split; reflexivity. }
  destruct Hs as [Hpc Hqueue].
  destruct (C1_one_holder_at_a_time noQuery "key" day1 0 handing_over s E)
    as (Hex & _ & _ & _ & _ & Hwin).
  destruct (Hwin 2%positive Hpc) as [Hnone Hnext].
  exists s. split; [reflexivity|]. split; [exact Hpc|].
  split; [exact Hqueue|]. split; [exact Hex|]. split; assumption.
Defined.

Lemma C2_witness :
  exists s,
    turns noQuery "key" queueing (boot day1 0) = Some s /\
    callers (log s) = [1; 2; 3; 4]%positive /\
    admitted (log s) = [1; 2; 3; 4]%positive /\
    before (is_enqueue 3) (is_call 4) (history s) /\
    in_line s /\
    before (is_admit 3) (is_admit 4) (history s).
Proof.
  destruct (turns noQuery "key" queueing (boot day1 0)) as [s|] eqn:E;
    [|vm_compute in E; discriminate].
  assert (Hs : callers (log s) = [1; 2; 3; 4]%positive
               /\ admitted (log s) = [1; 2; 3; 4]%positive
               /\ before (is_enqueue 3) (is_call 4) (history s)
               /\ exists e, In e (history s) /\ is_admit 4 e = true).
  { pose proof E as E'. vm_compute in E'. injection E' as <-.
    split; [reflexivity|]. split; [reflexivity|]. split.
    - apply (before_first_at _ _ _ 7%nat 10%nat);
        [vm_compute; reflexivity | vm_compute; reflexivity | lia].
    - exists (EvAdmit 4 2500). split; [|reflexivity].
      vm_compute. auto 30. }
  destruct Hs as (Hcallers & Hadm & Hbefore & Hin).
  destruct (C2_first_come_first_served noQuery "key" day1 0 queueing s E)
    as (Hline & _ & _ & Hfifo & _).
  exists s. split; [reflexivity|]. split; [exact Hcallers|].
  split; [exact Hadm|]. split; [exact Hbefore|]. split; [exact Hline|].
  exact (Hfifo 3%positive 4%positive Hbefore Hin).
Defined.

Lemma C6_witness :
  exists s,
    turns noQuery "key" in_order (boot day1 0) = Some s /\
    admissions (history s)
      = [(1%positive, 1000); (2%positive, 1500); (3%positive, 2000)] /\
    spaced (admissions (history s)).
Proof.
  destruct (turns noQuery "key" in_order (boot day1 0)) as [s|] eqn:E;
    [|vm_compute in E; discriminate].
  assert (Hadm : admissions (history s)
            = [(1%positive, 1000); (2%positive, 1500); (3%positive, 2000)]).
  { pose proof E as E'. vm_compute in E'. injection E' as <-. reflexivity. }
  exists s. split; [reflexivity|]. split; [exact Hadm|].
  exact (proj1 (C6_admissions_spaced noQuery "key" day1 0 in_order s E)).
Defined.

(** The platform does not run [overtaking] or [barging]: each makes a call
    while the continuation of a resolved waiter is due.  A host that ran
    the jobs in any order could, and [overtaking] would leave callers 2 and
    3 holding the slot together. *)
Lemma overtaking_out_of_order :
  turns noQuery "key" overtaking (boot day1 0) = None /\
  turns noQuery "key" barging (boot day1 0) = None /\
  exists s,
    demo overtaking = Some s /\
    pc_of s 2 = Some AwaitFetch /\
    pc_of s 3 = Some AwaitFetch /\
    ~ exclusive s.
Proof.
  split; [vm_compute; reflexivity|]. split; [vm_compute; reflexivity|].
  eexists. split; [vm_compute; reflexivity|].
  split; [reflexivity|]. split; [reflexivity|].
  intros H.
  assert (H23 : 2%positive = 3%positive); [|discriminate].
  apply H; eexists; (split; [reflexivity|reflexivity]).
Qed.

